(** * cpp_codegen: type-graph traversal, model identifiers and enum naming

    A shallow embedding of [cpp_codegen.py].  Python objects are modelled
    as addresses into an object store, so that sharing and cycles in the
    type graph are represented as they exist at run time; the generator
    instance is a record threaded through every method; recursion is
    bounded by a nesting depth and a method whose nesting exceeds the
    depth produces no result. *)

From Stdlib Require Import Ascii.
From stdpp Require Import base option list gmap sets strings sorting pretty.

(** ** The schema objects of module [idl] *)

(** Modelled from the spec: the classes of module [idl] (not part of this
    file of the repository).  A type is an object with reference identity;
    [ty] is the identity (address) of such an object. *)
Abbreviation ty := positive (only parsing).

(** Modelled from the spec: an attribute of an interface carries a name,
    the resolved type it refers to and a laziness flag. *)
Record TyInterfaceAttribute := {
  attr_name : string;
  resolved_ty : ty;
  lazy : bool
}.

(** Modelled from the spec: the object stored at an address.  The six
    first constructors are the classes [visit] and [_cpp_name] test for;
    [TyOther] stands for an object of any other class that carries a
    [name] attribute (such as an unresolved named reference).  The values
    of an enumeration are kept in the iteration order of their container. *)
Inductive node :=
  | TyInterface (name : string) (attrs : list TyInterfaceAttribute)
  | Alt (tys : list ty)
  | TyEnum (name : string) (values : list string)
  | TyPrimitive (name : string)
  | TyFrozenArray (element_ty : ty)
  | TyNone
  | TyOther (name : string).

(** The object store: which object lives at which address. *)
Abbreviation heap := (gmap positive node) (only parsing).

(** The types an object refers to, in declaration order. *)
Definition refs (nd : node) : list ty :=
  match nd with
  | TyInterface _ attrs => resolved_ty <$> attrs
  | Alt tys => tys
  | TyFrozenArray element_ty => [element_ty]
  | _ => []
  end.

(** Every reference held by a stored object points to a stored object, as
    is the case for Python references. *)
Definition closed (h : heap) : Prop :=
  map_Forall (λ _ nd, Forall (λ c, is_Some (h !! c)) (refs nd)) h.

Global Instance closed_dec h : Decision (closed h).
Proof. unfold closed. apply _. Defined.

(** Modelled from the spec: the resolver exposes the named root types. *)
Record Resolver := { resolver_interfaces : gmap string ty }.

(** ** The generator instance *)

Definition field_row : Type := string * string * string * nat.

Record generator := {
  resolver : Resolver;
  visited_types : gset positive;
  interfaces : list (string * list field_row);
  alts : list (string * list string);
  enums : list string;
  primitives : list string;
  frozen_arrays : list (string * string * nat);
  model_ids : gmap (positive * string) nat;
  next_model_id : nat
}.

(** [TypeVisitor.__init__]: the collections are created by [generate];
    before that they are shown empty. *)
Definition new_generator (r : Resolver) : generator :=
  {| resolver := r; visited_types := ∅; interfaces := []; alts := [];
     enums := []; primitives := []; frozen_arrays := [];
     model_ids := ∅; next_model_id := 0 |}.

Definition add_visited (t : ty) (g : generator) : generator :=
  {| resolver := resolver g; visited_types := visited_types g ∪ {[t]};
     interfaces := interfaces g; alts := alts g; enums := enums g;
     primitives := primitives g; frozen_arrays := frozen_arrays g;
     model_ids := model_ids g; next_model_id := next_model_id g |}.

Definition append_interface (e : string * list field_row) (g : generator) : generator :=
  {| resolver := resolver g; visited_types := visited_types g;
     interfaces := interfaces g ++ [e]; alts := alts g; enums := enums g;
     primitives := primitives g; frozen_arrays := frozen_arrays g;
     model_ids := model_ids g; next_model_id := next_model_id g |}.

Definition append_alt (e : string * list string) (g : generator) : generator :=
  {| resolver := resolver g; visited_types := visited_types g;
     interfaces := interfaces g; alts := alts g ++ [e]; enums := enums g;
     primitives := primitives g; frozen_arrays := frozen_arrays g;
     model_ids := model_ids g; next_model_id := next_model_id g |}.

Definition append_enum (e : string) (g : generator) : generator :=
  {| resolver := resolver g; visited_types := visited_types g;
     interfaces := interfaces g; alts := alts g; enums := enums g ++ [e];
     primitives := primitives g; frozen_arrays := frozen_arrays g;
     model_ids := model_ids g; next_model_id := next_model_id g |}.

Definition append_primitive (e : string) (g : generator) : generator :=
  {| resolver := resolver g; visited_types := visited_types g;
     interfaces := interfaces g; alts := alts g; enums := enums g;
     primitives := primitives g ++ [e]; frozen_arrays := frozen_arrays g;
     model_ids := model_ids g; next_model_id := next_model_id g |}.

Definition append_frozen_array (e : string * string * nat) (g : generator) : generator :=
  {| resolver := resolver g; visited_types := visited_types g;
     interfaces := interfaces g; alts := alts g; enums := enums g;
     primitives := primitives g; frozen_arrays := frozen_arrays g ++ [e];
     model_ids := model_ids g; next_model_id := next_model_id g |}.

(** The assignments at the top of [generate]. *)
Definition reset (g : generator) : generator :=
  {| resolver := resolver g; visited_types := visited_types g;
     interfaces := []; alts := []; enums := []; primitives := [];
     frozen_arrays := []; model_ids := ∅; next_model_id := 0 |}.

(** ** [_cpp_name] *)

(** [_cpp_name n h t] follows the recursion of the method for at most [n]
    nested calls.  An address without an object gives no result either;
    there is none in a [closed] store. *)
Fixpoint _cpp_name (n : nat) (h : heap) (t : ty) : option string :=
  match n with
  | 0 => None
  | S n =>
    match h !! t with
    | None => None
    | Some (Alt tys) =>
        names ← mapM (_cpp_name n h) tys; Some (String.concat "Or" names)
    | Some (TyFrozenArray element_ty) =>
        s ← _cpp_name n h element_ty; Some ("FrozenArray_" +:+ s)
    | Some TyNone => Some "None"
    | Some (TyInterface name _) => Some name
    | Some (TyEnum name _) => Some name
    | Some (TyPrimitive name) => Some name
    | Some (TyOther name) => Some name
    end
  end.

(** ** [_get_insert_model_id] *)

Definition _get_insert_model_id (k : ty * string) (g : generator) : nat * generator :=
  match model_ids g !! k with
  | Some model_id => (model_id, g)
  | None =>
      let model_id := next_model_id g in
      (model_id,
       {| resolver := resolver g; visited_types := visited_types g;
          interfaces := interfaces g; alts := alts g; enums := enums g;
          primitives := primitives g; frozen_arrays := frozen_arrays g;
          model_ids := <[k := model_id]> (model_ids g);
          next_model_id := next_model_id g + 1 |})
  end.

(** ** The handlers of [CppTypeMacroGenerator] *)

Definition bool_literal (b : bool) : string := if b then "true" else "false".

(** The loop of [visit_interface_type]: one row per attribute. *)
Fixpoint interface_fields (n : nat) (h : heap) (t : ty)
    (attrs : list TyInterfaceAttribute) (fields : list field_row)
    (g : generator) : option (list field_row * generator) :=
  match attrs with
  | [] => Some (fields, g)
  | attr :: attrs =>
      let '(model_id, g) := _get_insert_model_id (t, attr_name attr) g in
      ty_name ← _cpp_name n h (resolved_ty attr);
      interface_fields n h t attrs
        (fields ++ [(attr_name attr, ty_name, bool_literal (lazy attr), model_id)]) g
  end.

Definition visit_interface_type (n : nat) (h : heap) (t : ty)
    (attrs : list TyInterfaceAttribute) (g : generator) : option generator :=
  '(fields, g) ← interface_fields n h t attrs [] g;
  nm ← _cpp_name n h t;
  Some (append_interface (nm, fields) g).

Definition visit_alt_type (n : nat) (h : heap) (t : ty) (tys : list ty)
    (g : generator) : option generator :=
  nm ← _cpp_name n h t;
  subs ← mapM (_cpp_name n h) tys;
  Some (append_alt (nm, subs) g).

Definition visit_enum_type (n : nat) (h : heap) (t : ty) (g : generator)
    : option generator :=
  nm ← _cpp_name n h t; Some (append_enum nm g).

Definition visit_primitive_type (n : nat) (h : heap) (t : ty) (g : generator)
    : option generator :=
  nm ← _cpp_name n h t; Some (append_primitive nm g).

Definition visit_frozen_array_type (n : nat) (h : heap) (t element_ty : ty)
    (g : generator) : option generator :=
  let '(model_id, g) := _get_insert_model_id (t, "list-length") g in
  nm ← _cpp_name n h t;
  elem ← _cpp_name n h element_ty;
  Some (append_frozen_array (nm, elem, model_id) g).

(** ** [TypeVisitor.visit] *)

(** A [for] loop whose body updates the instance. *)
Fixpoint for_each {A S : Type} (body : A → S → option S) (l : list A) (s : S)
    : option S :=
  match l with
  | [] => Some s
  | x :: l => s ← body x s; for_each body l s
  end.

(** [visit n h t g] follows the method for at most [n] nested calls, the
    calls of the handlers and of [_cpp_name] included. *)
Fixpoint visit (n : nat) (h : heap) (t : ty) (g : generator) : option generator :=
  match n with
  | 0 => None
  | S n =>
    if decide (t ∈ visited_types g) then Some g
    else
      let g := add_visited t g in
      match h !! t with
      | None => None
      | Some (TyInterface _ attrs) =>
          g ← visit_interface_type n h t attrs g;
          for_each (λ attr, visit n h (resolved_ty attr)) attrs g
      | Some (Alt tys) =>
          g ← visit_alt_type n h t tys g;
          for_each (visit n h) tys g
      | Some (TyEnum _ _) => visit_enum_type n h t g
      | Some (TyPrimitive _) => visit_primitive_type n h t g
      | Some (TyFrozenArray element_ty) =>
          g ← visit_frozen_array_type n h t element_ty g;
          visit n h element_ty g
      | Some TyNone => Some g
      | Some (TyOther _) => Some g
      end
  end.

(** ** [CppTypeMacroGenerator.generate] *)

(** How a call of [generate] ends: it returns, it raises [KeyError] for
    the name looked up in the resolver, or its nesting exceeds the depth.
    The instance is given as the call leaves it. *)
Inductive outcome :=
  | Returned (g : generator)
  | KeyError (key : string) (g : generator)
  | Unfinished.

Definition generate (n : nat) (h : heap) (g : generator) : outcome :=
  let g := reset g in
  match resolver_interfaces (resolver g) !! "Script" with
  | None => KeyError "Script" g
  | Some root =>
      match visit n h root g with
      | Some g => Returned g
      | None => Unfinished
      end
  end.

(** ** [CppEnumTranslator] *)

Definition SYMBOL_NAMES : gmap ascii string :=
  list_to_map [
    ("+"%char, "PLUS");
    ("-"%char, "MINUS");
    ("="%char, "EQUAL");
    ("/"%char, "SLASH");
    ("*"%char, "STAR");
    ("<"%char, "LESS");
    (">"%char, "GREATER");
    ("|"%char, "PIPE");
    ("^"%char, "HAT");
    ("&"%char, "AND");
    (","%char, "COMMA");
    ("!"%char, "BANG");
    ("%"%char, "PCT");
    ("~"%char, "TILDE")
  ].

(** [str.upper] on one character with a code below 128: a letter [a]-[z]
    is raised by subtracting 32 from its code, any other character is kept.
    For characters from 128 on, [str.upper] follows the case mapping of
    Unicode, which is not modelled: there it can change a character that
    this function keeps, and even the length of the string.  The naming
    rule, the clashes of names and the length of a name are therefore
    stated for values that are [ascii_only]. *)
Definition upper_char (c : ascii) : ascii :=
  let k := nat_of_ascii c in
  if (97 <=? k)%nat && (k <=? 122)%nat then ascii_of_nat (k - 32) else c.

Fixpoint upper (s : string) : string :=
  match s with
  | EmptyString => EmptyString
  | String c s => String (upper_char c) (upper s)
  end.

(** [re.sub('[- ]', '_', v)]: every hyphen and every space is replaced. *)
Fixpoint sub_hyphen_space (s : string) : string :=
  match s with
  | EmptyString => EmptyString
  | String c s =>
      String (if decide (c = "-"%char \/ c = " "%char) then "_"%char else c)
             (sub_hyphen_space s)
  end.

Definition specials : gset ascii := dom SYMBOL_NAMES.

(** [make_name], local to [gen_enum].  In the second branch every
    character of [v] is a key of the table, so the lookups are defined.
    The first branch is the code's on values with all characters below
    128, see [upper_char]. *)
Definition make_name (v : string) : string :=
  let chs : gset ascii := list_to_set (String.list_ascii_of_string v) in
  if decide (chs ∖ specials ≠ ∅) then upper (sub_hyphen_space v)
  else String.concat "_" ((λ ch, SYMBOL_NAMES !!! ch) <$> String.list_ascii_of_string v).

(** [sorted] on strings: ascending in the order of [str], which compares
    character codes lexicographically. *)
Definition sorted (values : list string) : list string :=
  merge_sort String.le values.

(** The member names [gen_enum] joins, in the order it joins them. *)
Definition enum_members (values : list string) : list string :=
  make_name <$> sorted values.

Definition nl : string := String "010"%char EmptyString.

Definition gen_enum (name : string) (values : list string) : string :=
  let members := String.concat ("," +:+ nl +:+ "  ") (enum_members values) in
  "enum class " +:+ name +:+ " {" +:+ nl +:+ "  " +:+ members +:+ nl +:+ "};".


(** ** The traversal seen as a list of processed types *)

(** What [visit] does to a type it has not seen before, apart from the
    recursion: the type is recorded and the handler of its class runs. *)
Definition process (n : nat) (h : heap) (t : ty) (g : generator) : option generator :=
  let g := add_visited t g in
  match h !! t with
  | None => None
  | Some (TyInterface _ attrs) => visit_interface_type n h t attrs g
  | Some (Alt tys) => visit_alt_type n h t tys g
  | Some (TyEnum _ _) => visit_enum_type n h t g
  | Some (TyPrimitive _) => visit_primitive_type n h t g
  | Some (TyFrozenArray element_ty) => visit_frozen_array_type n h t element_ty g
  | Some TyNone => Some g
  | Some (TyOther _) => Some g
  end.

(** The types the object at [t] refers to. *)
Definition children (h : heap) (t : ty) : list ty :=
  match h !! t with Some nd => refs nd | None => [] end.

Definition edge (h : heap) (a b : ty) : Prop := b ∈ children h a.

(** [t] can be reached from [root] by following references. *)
Definition reachable (h : heap) (root t : ty) : Prop := rtc (edge h) root t.

(** ** A sequence of calls to the allocator *)

(** The identifiers returned by successive calls of
    [_get_insert_model_id], and the instance after the last call. *)
Fixpoint allocate_all (ks : list (positive * string)) (g : generator)
    : list nat * generator :=
  match ks with
  | [] => ([], g)
  | k :: ks =>
      let '(model_id, g) := _get_insert_model_id k g in
      let '(ids, g) := allocate_all ks g in
      (model_id :: ids, g)
  end.

(** The allocator's table is a bijection between the recorded keys and
    the integers below the counter. *)
Record alloc_ok (g : generator) : Prop := {
  alloc_bound k i : model_ids g !! k = Some i → i < next_model_id g;
  alloc_inj k1 k2 i :
    model_ids g !! k1 = Some i → model_ids g !! k2 = Some i → k1 = k2;
  alloc_dense i : i < next_model_id g → ∃ k, model_ids g !! k = Some i
}.

(** ** Conditions on the type graph *)

(** The name of every stored type is found within [k] nested calls of
    [_cpp_name]. *)
Definition names_defined (k : nat) (h : heap) : Prop :=
  map_Forall (λ t _, is_Some (_cpp_name k h t)) h.

(** No union or sequence is nested in itself through unions and sequences
    alone: [rank] decreases from a union to its members and from a
    sequence to its element.  Cycles through interfaces are not
    restricted. *)
Definition name_ranked (rank : positive → nat) (h : heap) : Prop :=
  map_Forall (λ t nd,
    match nd with
    | Alt tys => Forall (λ c, rank c < rank t) tys
    | TyFrozenArray element_ty => rank element_ty < rank t
    | _ => True
    end) h.

(** ** What a traversal leaves behind *)

(** The types processed by visiting [roots] from instance [g], in the
    order they are processed: each once, none visited before, all
    reachable, the roots among them, and every reference of a processed
    type leading to a visited or processed type. *)
Record visit_trace (h : heap) (roots : list positive) (g : generator)
    (order : list positive) : Prop := {
  trace_nodup : NoDup order;
  trace_new x : x ∈ order → x ∉ visited_types g;
  trace_reach x : x ∈ order → ∃ c, c ∈ roots ∧ reachable h c x;
  trace_roots c : c ∈ roots → c ∈ visited_types g ∨ c ∈ order;
  trace_closed x y : x ∈ order → edge h x y → y ∈ visited_types g ∨ y ∈ order
}.

(** [s] is the name [_cpp_name] returns for [t]. *)
Definition is_name (h : heap) (t : ty) (s : string) : Prop :=
  ∃ n, _cpp_name n h t = Some s.

(** The collection a type belongs to, if any. *)
Inductive kind := KInterface | KAlt | KEnum | KPrimitive | KFrozenArray.

Global Instance kind_eq_dec : EqDecision kind.
Proof. solve_decision. Defined.

Definition kind_of (h : heap) (t : ty) : option kind :=
  match h !! t with
  | Some (TyInterface _ _) => Some KInterface
  | Some (Alt _) => Some KAlt
  | Some (TyEnum _ _) => Some KEnum
  | Some (TyPrimitive _) => Some KPrimitive
  | Some (TyFrozenArray _) => Some KFrozenArray
  | _ => None
  end.

(** The types of one kind among [order], in the same order. *)
Definition of_kind (h : heap) (K : kind) (order : list positive) : list positive :=
  filter (λ t, kind_of h t = Some K) order.

(** The row of attribute [a] of interface [t]: its name, the name of its
    type, its laziness literal and the identifier recorded for it. *)
Definition interface_row (h : heap) (g : generator) (t : ty)
    (a : TyInterfaceAttribute) (row : field_row) : Prop :=
  ∃ nm model_id,
    is_name h (resolved_ty a) nm ∧
    model_ids g !! (t, attr_name a) = Some model_id ∧
    row = (attr_name a, nm, bool_literal (lazy a), model_id).

Definition interface_entry (h : heap) (g : generator) (t : ty)
    (e : string * list field_row) : Prop :=
  ∃ nm attrs,
    h !! t = Some (TyInterface nm attrs) ∧ e.1 = nm ∧
    Forall2 (interface_row h g t) attrs e.2.

Definition alt_entry (h : heap) (t : ty) (e : string * list string) : Prop :=
  ∃ tys, h !! t = Some (Alt tys) ∧ is_name h t e.1 ∧ Forall2 (is_name h) tys e.2.

Definition enum_entry (h : heap) (t : ty) (e : string) : Prop :=
  ∃ values, h !! t = Some (TyEnum e values).

Definition primitive_entry (h : heap) (t : ty) (e : string) : Prop :=
  h !! t = Some (TyPrimitive e).

Definition frozen_array_entry (h : heap) (g : generator) (t : ty)
    (e : string * string * nat) : Prop :=
  ∃ element_ty,
    h !! t = Some (TyFrozenArray element_ty) ∧
    is_name h t e.1.1 ∧ is_name h element_ty e.1.2 ∧
    model_ids g !! (t, "list-length") = Some e.2.

(** Each collection of [g] holds, in order, one entry for each type of its
    kind in [order], and that entry describes this type. *)
Record collections_of (h : heap) (order : list positive) (g : generator) : Prop := {
  interfaces_of :
    Forall2 (interface_entry h g) (of_kind h KInterface order) (interfaces g);
  alts_of : Forall2 (alt_entry h) (of_kind h KAlt order) (alts g);
  enums_of : Forall2 (enum_entry h) (of_kind h KEnum order) (enums g);
  primitives_of :
    Forall2 (primitive_entry h) (of_kind h KPrimitive order) (primitives g);
  frozen_arrays_of :
    Forall2 (frozen_array_entry h g) (of_kind h KFrozenArray order) (frozen_arrays g)
}.

(** Two types of the same kind among [order] never have the same name. *)
Definition names_distinct (h : heap) (order : list positive) : Prop :=
  ∀ t1 t2 s, t1 ∈ order → t2 ∈ order → kind_of h t1 = kind_of h t2 →
    is_name h t1 s → is_name h t2 s → t1 = t2.

Global Instance name_ranked_dec rank h : Decision (name_ranked rank h).
Proof.
  unfold name_ranked. apply map_Forall_dec. intros t nd. destruct nd; apply _.
Defined.

(** ** Schemas used as examples *)

Definition attr (name : string) (t : ty) (is_lazy : bool) : TyInterfaceAttribute :=
  {| attr_name := name; resolved_ty := t; lazy := is_lazy |}.

(** A resolver whose interface [Script] is the object at address 1. *)
Definition script_resolver : Resolver :=
  {| resolver_interfaces := {[ "Script" := 1%positive ]} |}.

(** Interface [Script] has two attributes, both of interface type [B]. *)
Definition shared_heap : gmap positive node :=
  list_to_map [
    (1%positive, TyInterface "Script" [attr "left" 2 false; attr "right" 2 true]);
    (2%positive, TyInterface "B" [])
  ].

(** Interface [Script] has an attribute whose type is a union, and
    [Script] is a member of this union. *)
Definition cyclic_heap : gmap positive node :=
  list_to_map [
    (1%positive, TyInterface "Script" [attr "body" 2 false]);
    (2%positive, Alt [1%positive; 3%positive]);
    (3%positive, TyPrimitive "String")
  ].

Definition cyclic_rank (t : positive) : nat :=
  match t with 2%positive => 1 | _ => 0 end.

(** Two attributes whose types are two separate unions of the same
    members: two objects that look alike. *)
Definition twin_unions_heap : gmap positive node :=
  list_to_map [
    (1%positive, TyInterface "Script" [attr "first" 2 false; attr "second" 3 false]);
    (2%positive, Alt [4%positive; 5%positive]);
    (3%positive, Alt [4%positive; 5%positive]);
    (4%positive, TyPrimitive "Number");
    (5%positive, TyPrimitive "String")
  ].

(** A union that is one of its own members, as in
    [typedef (String or Chain) Chain]. *)
Definition self_union_heap : gmap positive node :=
  list_to_map [
    (1%positive, TyInterface "Script" [attr "chain" 2 false]);
    (2%positive, Alt [3%positive; 2%positive]);
    (3%positive, TyPrimitive "String")
  ].

(** A union that contains a sequence of itself, as in
    [typedef (Number or FrozenArray<Json>) Json]. *)
Definition json_heap : gmap positive node :=
  list_to_map [
    (1%positive, TyInterface "Script" [attr "value" 2 false]);
    (2%positive, Alt [3%positive; 4%positive]);
    (3%positive, TyPrimitive "Number");
    (4%positive, TyFrozenArray 2)
  ].

(** A root that is an object of a class [visit] does not test for. *)
Definition foreign_heap : gmap positive node :=
  {[ 1%positive := TyOther "Ref" ]}.

(** A resolver that knows no interface named [Script]. *)
Definition empty_resolver : Resolver := {| resolver_interfaces := ∅ |}.

(** A union that holds a sequence of itself, seen from the sequence, as in
    [typedef FrozenArray<(String or Nested)> Nested]. *)
Definition nested_heap : gmap positive node :=
  list_to_map [
    (1%positive, TyFrozenArray 2);
    (2%positive, Alt [3%positive; 1%positive]);
    (3%positive, TyPrimitive "String")
  ].

(** A union of two primitives, a sequence of a primitive and the void
    sentinel. *)
Definition names_heap : gmap positive node :=
  list_to_map [
    (1%positive, Alt [2%positive; 3%positive]);
    (2%positive, TyPrimitive "Number");
    (3%positive, TyPrimitive "String");
    (4%positive, TyFrozenArray 2);
    (5%positive, TyNone)
  ].

Definition names_rank (t : positive) : nat :=
  match t with 1%positive | 4%positive => 1 | _ => 0 end.

(** The instance a call of [generate] returned. *)
Definition returned_or (o : outcome) (g0 : generator) : generator :=
  match o with Returned g => g | _ => g0 end.

(** The instance after one run over the schema with a shared interface. *)
Definition shared_run : generator :=
  returned_or (generate 3 shared_heap (new_generator script_resolver))
    (new_generator script_resolver).

(** ** The rules for enumeration members, as the specification words them *)

(** Every character of the value has a code below 128. *)
Definition ascii_only (v : string) : Prop :=
  Forall (λ c, nat_of_ascii c < 128) (String.list_ascii_of_string v).

Global Instance ascii_only_dec v : Decision (ascii_only v).
Proof. unfold ascii_only. apply _. Defined.

(** The small letters and, at the same places, their capitals. *)
Definition small_letters : string := "abcdefghijklmnopqrstuvwxyz".
Definition capital_letters : string := "ABCDEFGHIJKLMNOPQRSTUVWXYZ".

Definition capitals : gmap ascii ascii :=
  list_to_map (zip (String.list_ascii_of_string small_letters)
                   (String.list_ascii_of_string capital_letters)).

(** The capital of a small letter; any other character is kept. *)
Definition capital (c : ascii) : ascii := default c (capitals !! c).

(** The character is one of the symbols of the table. *)
Definition in_symbol_table (c : ascii) : bool :=
  bool_decide (is_Some (SYMBOL_NAMES !! c)).

(** The name the table gives to a symbol. *)
Definition table_name (c : ascii) : string := default "" (SYMBOL_NAMES !! c).

(** Spaces and hyphens become underscores and the result is uppercased. *)
Definition sanitized (v : string) : string :=
  String.string_of_list_ascii
    ((λ c, capital (if bool_decide (c = " "%char ∨ c = "-"%char)
                    then "_"%char else c))
       <$> String.list_ascii_of_string v).

(** The dual rule: a value with a character outside the table is
    sanitized; a value made of table symbols only is the join, with
    underscores, of the names of its symbols. *)
Definition member_name_rule (v : string) : string :=
  let chars := String.list_ascii_of_string v in
  if existsb (λ c, negb (in_symbol_table c)) chars then sanitized v
  else String.concat "_" (table_name <$> chars).

(** Lexicographic order on the character codes: at the first position
    where two strings differ the smaller code decides, and a proper prefix
    comes first. *)
Fixpoint lex_le (s1 s2 : string) : Prop :=
  match s1, s2 with
  | EmptyString, _ => True
  | String _ _, EmptyString => False
  | String c1 s1, String c2 s2 =>
      nat_of_ascii c1 < nat_of_ascii c2 ∨ (c1 = c2 ∧ lex_le s1 s2)
  end.

(** Every character of the value is a symbol of the table. *)
Definition symbols_only (v : string) : Prop :=
  Forall (λ c, is_Some (SYMBOL_NAMES !! c)) (String.list_ascii_of_string v).

(** The string holds no underscore. *)
Definition underscore_free (s : string) : Prop :=
  "_"%char ∉ String.list_ascii_of_string s.

Global Instance symbols_only_dec v : Decision (symbols_only v).
Proof. unfold symbols_only. apply _. Defined.

(** ** Values whose member names clash *)

(** The character is a space, a hyphen or an underscore. *)
Definition separator (c : ascii) : Prop :=
  c = " "%char ∨ c = "-"%char ∨ c = "_"%char.

(** Two characters are alike when they are equal, when one is the capital
    of the other, or when both are separators. *)
Definition alike_char (c d : ascii) : Prop :=
  c = d ∨ capital c = d ∨ capital d = c ∨ (separator c ∧ separator d).

Global Instance alike_char_dec : RelDecision alike_char.
Proof. intros c d. unfold alike_char, separator. apply _. Defined.

(** Two strings are alike when they have the same length and are alike
    character by character: they differ at most in the case of letters and
    in which separator stands at a place. *)
Definition alike (v w : string) : Prop :=
  Forall2 alike_char (String.list_ascii_of_string v) (String.list_ascii_of_string w).

Global Instance alike_dec : RelDecision alike.
Proof. intros v w. unfold alike. apply _. Defined.

(** The table names of the symbols of a value, joined by underscores. *)
Definition spelled (v : string) : string :=
  String.concat "_" (table_name <$> String.list_ascii_of_string v).

(** Two values clash when both have a character outside the table and are
    alike, or when one has a character outside the table and is alike to
    the spelled-out symbols of the other, which is made of table symbols
    only (as [plus] and [+]). *)
Definition clash (v w : string) : Prop :=
  (¬ symbols_only v ∧ ¬ symbols_only w ∧ alike v w) ∨
  (¬ symbols_only v ∧ symbols_only w ∧ alike v (spelled w)) ∨
  (symbols_only v ∧ ¬ symbols_only w ∧ alike (spelled v) w).

Global Instance clash_dec : RelDecision clash.
Proof. intros v w. unfold clash. apply _. Defined.

(** No two distinct values of the list clash. *)
Definition clash_free (values : list string) : Prop :=
  Forall (λ v, Forall (λ w, v = w ∨ ¬ clash v w) values) values.

Global Instance clash_free_dec values : Decision (clash_free values).
Proof. unfold clash_free. apply _. Defined.

(** Every character. *)
Definition all_chars : list ascii := ascii_of_nat <$> seq 0 256.

(** ** The same schema at other addresses *)

(** A second run finds the objects of the schema at other addresses: [f]
    sends the address of an object in one run to its address in the
    other. *)
Definition rename_attr (f : positive → positive) (a : TyInterfaceAttribute)
    : TyInterfaceAttribute :=
  {| attr_name := attr_name a; resolved_ty := f (resolved_ty a); lazy := lazy a |}.

Definition rename_node (f : positive → positive) (nd : node) : node :=
  match nd with
  | TyInterface name attrs => TyInterface name (rename_attr f <$> attrs)
  | Alt tys => Alt (f <$> tys)
  | TyFrozenArray element_ty => TyFrozenArray (f element_ty)
  | TyEnum name values => TyEnum name values
  | TyPrimitive name => TyPrimitive name
  | TyNone => TyNone
  | TyOther name => TyOther name
  end.

Definition rename_heap (f : positive → positive) (h : heap) : heap :=
  kmap f (rename_node f <$> h).

Definition rename_resolver (f : positive → positive) (r : Resolver) : Resolver :=
  {| resolver_interfaces := f <$> resolver_interfaces r |}.

(** The instance of one run seen at the addresses of the other: the
    collections and the counter are the same, the visited types and the
    keys of the identifier table are moved. *)
Definition rename_generator (f : positive → positive) (g : generator) : generator :=
  {| resolver := rename_resolver f (resolver g);
     visited_types := set_map f (visited_types g);
     interfaces := interfaces g; alts := alts g; enums := enums g;
     primitives := primitives g; frozen_arrays := frozen_arrays g;
     model_ids := kmap (prod_map f id) (model_ids g);
     next_model_id := next_model_id g |}.


(** ** The text emitters of [CppTypeMacroGenerator] *)

Definition backslash : string := String "092"%char EmptyString.

(** The separator of table rows: a space, a backslash and a line break. *)
Definition continuation : string := " " +:+ backslash +:+ nl.

(** [gen_fields], local to [gen_interfaces].  An identifier is formatted
    as a decimal numeral. *)
Definition gen_fields (fields : list field_row) : string :=
  String.concat ", "
    ((λ '(name, ty_name, lazy, model_id),
        "T(" +:+ name +:+ ", " +:+ ty_name +:+ ", " +:+ lazy +:+ ", "
          +:+ pretty model_id +:+ ")") <$> fields).

Definition gen_interfaces (g : generator) : string :=
  let interfaces :=
    String.concat continuation
      ((λ '(name, fields), "  V(" +:+ name +:+ ", " +:+ gen_fields fields +:+ ")")
         <$> interfaces g) in
  "#define BINAST_INTERFACES(V,T) " +:+ backslash +:+ nl +:+ interfaces.

(** [gen_alts]; its local function [gen_subtypes] is never called. *)
Definition gen_alts (g : generator) : string :=
  let alts :=
    String.concat continuation
      ((λ '(name, subtys),
          "  V(" +:+ name +:+ ", T(" +:+ String.concat ", " subtys +:+ ")")
         <$> alts g) in
  "#define BINAST_ALTS(V,T) " +:+ backslash +:+ nl +:+ alts +:+ nl.

Definition gen_enums (g : generator) : string :=
  let enums :=
    String.concat continuation ((λ name, "  V(" +:+ name +:+ ")") <$> enums g) in
  "#define BINAST_ENUMS(V) " +:+ backslash +:+ nl +:+ enums +:+ nl.

Definition gen_primitives (g : generator) : string :=
  let primitives :=
    String.concat continuation ((λ name, "  V(" +:+ name +:+ ")") <$> primitives g) in
  "#define BINAST_PRIMITIVES(V) " +:+ backslash +:+ nl +:+ primitives +:+ nl.

Definition gen_frozen_arrays (g : generator) : string :=
  let frozen_arrays :=
    String.concat continuation
      ((λ '(name, elem_name, model_id),
          "  V(" +:+ name +:+ ", " +:+ elem_name +:+ ", " +:+ pretty model_id +:+ ")")
         <$> frozen_arrays g) in
  "#define BINAST_FROZEN_ARRAYS(V) " +:+ backslash +:+ nl +:+ frozen_arrays +:+ nl.

Definition gen_all (g : generator) : string :=
  String.concat nl
    [gen_interfaces g; gen_alts g; gen_enums g; gen_primitives g;
     gen_frozen_arrays g].

(** ** [CppEnumTranslator.gen] and [main] *)

(** [CppEnumTranslator.gen].  [enum_types] stands for
    [self.types.enums.values()]: the enumerations of the resolver in the
    order of its dictionary, each with its name and its values. *)
Definition gen (enum_types : list (string * list string)) : string :=
  String.concat (nl +:+ nl)
    ((λ '(name, values), gen_enum name values) <$> enum_types).

(** How [main] ends, with the texts it has printed so far. *)
Inductive main_outcome :=
  | MainReturned (printed : list string)
  | MainKeyError (key : string) (printed : list string)
  | MainUnfinished.

(** [main]; the resolver that [idl.parse_es6_idl] returns is given by the
    store, the named interfaces and the enumerations. *)
Definition main (n : nat) (h : heap) (r : Resolver)
    (enum_types : list (string * list string)) : main_outcome :=
  match generate n h (new_generator r) with
  | Returned g => MainReturned [gen_all g; gen enum_types]
  | KeyError key _ => MainKeyError key []
  | Unfinished => MainUnfinished
  end.

(** ** Counting and keys *)

(** The keys under which processing [t] asks for an identifier. *)
Definition keys_of (h : heap) (t : ty) : gset (positive * string) :=
  match h !! t with
  | Some (TyInterface _ attrs) => list_to_set ((λ a, (t, attr_name a)) <$> attrs)
  | Some (TyFrozenArray _) => {[ (t, "list-length") ]}
  | _ => ∅
  end.

(** Attributes of which two have the same name, and the rows and the
    instance [visit_interface_type]'s loop builds for them on a new
    instance. *)
Definition twin_attrs : list TyInterfaceAttribute :=
  [attr "x" 2 false; attr "y" 2 false; attr "x" 2 true].

Definition twin_rows : list field_row :=
  match interface_fields 1 shared_heap 1 twin_attrs []
          (new_generator script_resolver) with
  | Some (rows, _) => rows
  | None => []
  end.

Definition twin_rows_generator : generator :=
  match interface_fields 1 shared_heap 1 twin_attrs []
          (new_generator script_resolver) with
  | Some (_, g) => g
  | None => new_generator script_resolver
  end.

(** The attributes of [Script] in the schema with a shared interface,
    and the rows and the instance the loop builds for them. *)
Definition script_attrs : list TyInterfaceAttribute :=
  [attr "left" 2 false; attr "right" 2 true].

Definition script_rows : list field_row :=
  match interface_fields 1 shared_heap 1 script_attrs []
          (new_generator script_resolver) with
  | Some (rows, _) => rows
  | None => []
  end.

Definition script_rows_generator : generator :=
  match interface_fields 1 shared_heap 1 script_attrs []
          (new_generator script_resolver) with
  | Some (_, g) => g
  | None => new_generator script_resolver
  end.

(** ** Characters of a text *)

(** The string does not hold the character. *)
Definition char_free (c : ascii) (s : string) : Prop :=
  c ∉ String.list_ascii_of_string s.

Global Instance char_free_dec c s : Decision (char_free c s).
Proof. unfold char_free. apply _. Defined.

(** How often the character occurs in the string. *)
Definition count_char (c : ascii) (s : string) : nat :=
  length (filter (λ x, x = c) (String.list_ascii_of_string s)).

(** The string holds no parenthesis. *)
Definition paren_free (s : string) : Prop :=
  char_free "("%char s ∧ char_free ")"%char s.

Global Instance paren_free_dec s : Decision (paren_free s).
Proof. unfold paren_free. apply _. Defined.

Definition nl_char : ascii := "010"%char.

(** Two instances that differ in their enumerations and primitives. *)
Definition names_generator (es ps : list string) : generator :=
  {| resolver := script_resolver; visited_types := ∅; interfaces := [];
     alts := []; enums := es; primitives := ps; frozen_arrays := [];
     model_ids := ∅; next_model_id := 0 |}.

(** No name, type name or literal held in the collections has a
    parenthesis. *)
Definition plain_collections (g : generator) : Prop :=
  Forall (λ e : string * list field_row,
            paren_free e.1 ∧
            Forall (λ row : field_row,
                      paren_free row.1.1.1 ∧ paren_free row.1.1.2 ∧
                      paren_free row.1.2) e.2) (interfaces g) ∧
  Forall (λ e : string * list string, paren_free e.1 ∧ Forall paren_free e.2)
    (alts g) ∧
  Forall paren_free (enums g) ∧
  Forall paren_free (primitives g) ∧
  Forall (λ e : string * string * nat, paren_free e.1.1 ∧ paren_free e.1.2)
    (frozen_arrays g).

Global Instance plain_collections_dec g : Decision (plain_collections g).
Proof. unfold plain_collections. apply _. Defined.

(** The instance after a run over the schema with two look-alike unions. *)
Definition twin_unions_run : generator :=
  returned_or (generate 4 twin_unions_heap (new_generator script_resolver))
    (new_generator script_resolver).

(** A lowercase letter of the alphabet [a]-[z]. *)
Definition is_lower (c : ascii) : Prop :=
  97 ≤ nat_of_ascii c ∧ nat_of_ascii c ≤ 122.

(** Neither a space, nor a hyphen, nor a lowercase letter. *)
Definition plain_char (c : ascii) : Prop :=
  c ≠ " "%char ∧ c ≠ "-"%char ∧ ¬ is_lower c.

Global Instance plain_char_dec c : Decision (plain_char c).
Proof. unfold plain_char, is_lower. apply _. Defined.

(** Every type of [order] is one of [roots] or comes after a type of
    [order] that refers to it. *)
Definition discovered (h : heap) (roots order : list positive) : Prop :=
  ∀ i y, order !! i = Some y →
    y ∈ roots ∨ ∃ j x, j < i ∧ order !! j = Some x ∧ edge h x y.

(** The instance after a run over the schema with a cycle. *)
Definition cyclic_run : generator :=
  returned_or (generate 4 cyclic_heap (new_generator script_resolver))
    (new_generator script_resolver).

(** ** Identifiers in the tables *)

(** The identifiers in the rows of the interfaces collection and in the
    entries of the sequences collection, in the order of the tables. *)
Definition interface_ids (g : generator) : list nat :=
  concat ((λ e : string * list field_row,
             (λ row : field_row, row.2) <$> e.2) <$> interfaces g).

Definition frozen_array_ids (g : generator) : list nat :=
  (λ e : string * string * nat, e.2) <$> frozen_arrays g.

(** No interface declares two attributes of the same name. *)
Definition distinct_attr_names (h : heap) : Prop :=
  map_Forall (λ _ nd,
    match nd with
    | TyInterface _ attrs => NoDup (attr_name <$> attrs)
    | _ => True
    end) h.

Global Instance distinct_attr_names_dec h : Decision (distinct_attr_names h).
Proof.
  unfold distinct_attr_names. apply map_Forall_dec. intros t nd.
  destruct nd; apply _.
Defined.

(** The identifiers were issued in the order of the tables: the table
    has keys of visited types only, and the identifiers of each table
    increase and lie below the counter. *)
Record numbered (g : generator) : Prop := {
  keys_visited t a : is_Some (model_ids g !! (t, a)) → t ∈ visited_types g;
  interface_ids_below : Forall (λ i, i < next_model_id g) (interface_ids g);
  frozen_array_ids_below : Forall (λ i, i < next_model_id g) (frozen_array_ids g);
  interface_ids_sorted : StronglySorted lt (interface_ids g);
  frozen_array_ids_sorted : StronglySorted lt (frozen_array_ids g)
}.


(** * Properties *)


(** ** Fuel *)

Section fuel.
Context (h : gmap positive node).

Lemma for_each_app {A S} (body : A → S → option S) l1 l2 s :
  for_each body (l1 ++ l2) s = s' ← for_each body l1 s; for_each body l2 s'.
Proof.
  revert s. induction l1 as [|x l1 IH]; intros s; simpl; [done|].
  destruct (body x s); simpl; auto.
Qed.

Lemma for_each_fmap {A B S} (f : A → B) (body : B → S → option S) l s :
  for_each (λ a, body (f a)) l s = for_each body (f <$> l) s.
Proof.
  revert s. induction l as [|x l IH]; intros s; simpl; [done|].
  destruct (body (f x) s); simpl; auto.
Qed.

Lemma for_each_mono {A S} (body body' : A → S → option S) l s s' :
  (∀ x a b, x ∈ l → body x a = Some b → body' x a = Some b) →
  for_each body l s = Some s' → for_each body' l s = Some s'.
Proof.
  revert s. induction l as [|x l IH]; intros s Hb; simpl; [done|].
  destruct (body x s) as [s1|] eqn:E; simpl; [|done].
  intros Hl. rewrite (Hb x s s1); [|left|done]. simpl.
  apply IH; [|done]. intros y a b ?. apply Hb. by right.
Qed.

Lemma cpp_name_mono n m t s :
  _cpp_name n h t = Some s → n ≤ m → _cpp_name m h t = Some s.
Proof.
  revert m t s. induction n as [|n IH]; intros m t s; [done|].
  intros Hn Hle. destruct m as [|m]; [lia|]. simpl in *.
  destruct (h !! t) as [[]|]; try done.
  - destruct (mapM (_cpp_name n h) tys) as [names|] eqn:E; [|done].
    simpl in Hn.
    assert (mapM (_cpp_name m h) tys = Some names) as ->; [|done].
    apply mapM_Some. apply mapM_Some in E.
    eapply Forall2_impl; [done|]. intros x y ?. apply IH; [done|lia].
  - destruct (_cpp_name n h element_ty) as [s'|] eqn:E; [|done].
    rewrite (IH m element_ty s'); [done|done|lia].
Qed.

Lemma cpp_name_agree n m t s s' :
  _cpp_name n h t = Some s → _cpp_name m h t = Some s' → s = s'.
Proof.
  intros H1 H2.
  apply (cpp_name_mono _ (n `max` m)) in H1; [|lia].
  apply (cpp_name_mono _ (n `max` m)) in H2; [|lia]. congruence.
Qed.

Lemma mapM_cpp_name_mono n m tys names :
  mapM (_cpp_name n h) tys = Some names → n ≤ m →
  mapM (_cpp_name m h) tys = Some names.
Proof.
  rewrite !mapM_Some. intros HF Hle. eapply Forall2_impl; [done|].
  intros x y Hx. exact (cpp_name_mono _ _ _ _ Hx Hle).
Qed.

Lemma interface_fields_mono n m t attrs fields g r :
  interface_fields n h t attrs fields g = Some r → n ≤ m →
  interface_fields m h t attrs fields g = Some r.
Proof.
  revert fields g. induction attrs as [|a attrs IH]; intros fields g; simpl; [done|].
  destruct (_get_insert_model_id _ g) as [model_id g1].
  destruct (_cpp_name n h (resolved_ty a)) as [s|] eqn:E; [|done]. simpl.
  intros Hr Hle. rewrite (cpp_name_mono _ m _ _ E Hle). simpl. by apply IH.
Qed.

Lemma process_mono n m t g g' :
  process n h t g = Some g' → n ≤ m → process m h t g = Some g'.
Proof.
  unfold process. intros Hp Hle. destruct (h !! t) as [[]|]; try done.
  - unfold visit_interface_type in *.
    destruct (interface_fields n h t attrs [] _) as [[fields g1]|] eqn:E; [|done].
    rewrite (interface_fields_mono _ m _ _ _ _ _ E Hle). simpl in *.
    destruct (_cpp_name n h t) as [s|] eqn:E2; [|done].
    by rewrite (cpp_name_mono _ m _ _ E2 Hle).
  - unfold visit_alt_type in *.
    destruct (_cpp_name n h t) as [s|] eqn:E2; [|done].
    rewrite (cpp_name_mono _ m _ _ E2 Hle). simpl in *.
    destruct (mapM (_cpp_name n h) tys) as [names|] eqn:E; [|done].
    by rewrite (mapM_cpp_name_mono _ m _ _ E Hle).
  - unfold visit_enum_type in *.
    destruct (_cpp_name n h t) as [s|] eqn:E2; [|done].
    by rewrite (cpp_name_mono _ m _ _ E2 Hle).
  - unfold visit_primitive_type in *.
    destruct (_cpp_name n h t) as [s|] eqn:E2; [|done].
    by rewrite (cpp_name_mono _ m _ _ E2 Hle).
  - unfold visit_frozen_array_type in *.
    destruct (_get_insert_model_id _ _) as [model_id g1].
    destruct (_cpp_name n h t) as [s|] eqn:E2; [|done].
    rewrite (cpp_name_mono _ m _ _ E2 Hle). simpl in *.
    destruct (_cpp_name n h element_ty) as [s'|] eqn:E3; [|done].
    by rewrite (cpp_name_mono _ m _ _ E3 Hle).
Qed.

(** One call of [visit]: a seen type is left alone; a new one is
    processed and the types it refers to are visited in order. *)
Lemma visit_unfold n t g :
  visit (S n) h t g =
    if decide (t ∈ visited_types g) then Some g
    else g ← process n h t g; for_each (visit n h) (children h t) g.
Proof.
  simpl. destruct (decide _); [done|]. unfold process, children.
  destruct (h !! t) as [[]|]; simpl; try done.
  - destruct (visit_interface_type _ _ _ _ _); simpl; [|done].
    apply (for_each_fmap resolved_ty (visit n h)).
  - by destruct (visit_enum_type _ _ _ _).
  - by destruct (visit_primitive_type _ _ _ _).
  - destruct (visit_frozen_array_type _ _ _ _ _); simpl; [|done].
    by destruct (visit n h element_ty _).
Qed.

Lemma visit_mono n m t g g' :
  visit n h t g = Some g' → n ≤ m → visit m h t g = Some g'.
Proof.
  revert m t g g'. induction n as [|n IH]; intros m t g g'; [done|].
  intros Hv Hle. destruct m as [|m]; [lia|].
  rewrite visit_unfold in Hv |- *. destruct (decide _); [done|].
  destruct (process n h t g) as [g1|] eqn:E; [|done].
  rewrite (process_mono _ m _ _ _ E); [|lia]. simpl in *.
  eapply for_each_mono; [|done]. intros x a b _ ?. apply IH; [done|lia].
Qed.
End fuel.

(** ** The handlers *)

Section handlers.
Context (h : gmap positive node).
Implicit Types (g : generator) (t : positive).

Lemma get_insert_frame' k g :
  let g' := (_get_insert_model_id k g).2 in
  resolver g' = resolver g ∧ visited_types g' = visited_types g ∧
  model_ids g ⊆ model_ids g'.
Proof.
  unfold _get_insert_model_id. destruct (model_ids g !! k) eqn:E; simpl; [done|].
  split_and!; [done..|]. by apply insert_subseteq.
Qed.

Lemma interface_fields_frame n t attrs fields g fields' g' :
  interface_fields n h t attrs fields g = Some (fields', g') →
  resolver g' = resolver g ∧ visited_types g' = visited_types g ∧
  model_ids g ⊆ model_ids g'.
Proof.
  revert fields g. induction attrs as [|a attrs IH]; intros fields g; simpl.
  - by intros [= <- <-].
  - pose proof (get_insert_frame' (t, attr_name a) g) as Hfr.
    destruct (_get_insert_model_id _ g) as [model_id g1]. simpl in Hfr.
    destruct Hfr as (Hr & Hv & Hm).
    destruct (_cpp_name n h (resolved_ty a)) as [s|]; [|done]. simpl.
    intros (-> & -> & ?)%IH. split_and!; [done..|]. by etrans.
Qed.

Lemma process_frame n t g g' :
  process n h t g = Some g' →
  resolver g' = resolver g ∧
  visited_types g' = visited_types g ∪ {[t]} ∧
  model_ids g ⊆ model_ids g'.
Proof.
  unfold process. destruct (h !! t) as [[]|]; try done.
  - unfold visit_interface_type.
    destruct (interface_fields _ _ _ _ _ _) as [[fields g1]|] eqn:E; [|done].
    apply interface_fields_frame in E as (? & ? & ?). simpl.
    destruct (_cpp_name n h t); [|done]. by intros [= <-].
  - unfold visit_alt_type. destruct (_cpp_name n h t); [|done]. simpl.
    destruct (mapM _ _); [|done]. by intros [= <-].
  - unfold visit_enum_type. destruct (_cpp_name n h t); [|done].
    by intros [= <-].
  - unfold visit_primitive_type. destruct (_cpp_name n h t); [|done].
    by intros [= <-].
  - unfold visit_frozen_array_type.
    pose proof (get_insert_frame' (t, "list-length") (add_visited t g)) as Hfr.
    destruct (_get_insert_model_id _ _) as [model_id g1]. simpl in Hfr.
    destruct Hfr as (? & ? & ?).
    destruct (_cpp_name n h t); [|done]. simpl.
    destruct (_cpp_name n h element_ty); [|done]. by intros [= <-].
  - by intros [= <-].
  - by intros [= <-].
Qed.

Lemma interface_fields_defined n t attrs fields g :
  Forall (λ a, is_Some (_cpp_name n h (resolved_ty a))) attrs →
  is_Some (interface_fields n h t attrs fields g).
Proof.
  revert fields g. induction attrs as [|a attrs IH]; intros fields g; simpl; [by eauto|].
  intros [[s Hs] Hrest]%Forall_cons.
  destruct (_get_insert_model_id _ g) as [model_id g1]. rewrite Hs. simpl.
  by apply IH.
Qed.

Lemma mapM_defined {A B} (f : A → option B) l :
  Forall (λ x, is_Some (f x)) l → is_Some (mapM f l).
Proof.
  induction 1 as [|x l [y Hy] _ [k Hk]]; simpl; [by eauto|].
  rewrite Hy. simpl. rewrite Hk. simpl. eauto.
Qed.

(** With all names within reach, the handler of every class returns. *)
Lemma process_defined k n t g :
  closed h → names_defined k h → k ≤ n → is_Some (h !! t) →
  is_Some (process n h t g).
Proof.
  intros Hcl Hnm Hle [nd Hnd].
  assert (Hname : ∀ c, is_Some (h !! c) → is_Some (_cpp_name n h c)).
  { intros c [ndc Hc]. destruct (Hnm c ndc Hc) as [s Hs].
    exists s. by eapply cpp_name_mono. }
  assert (Hrefs : Forall (λ c, is_Some (_cpp_name n h c)) (refs nd)).
  { eapply Forall_impl; [exact (Hcl t nd Hnd)|]. intros c. apply Hname. }
  destruct (Hname t) as [s Hs]; [by eauto|].
  unfold process. rewrite Hnd. destruct nd; simpl in Hrefs.
  - unfold visit_interface_type.
    destruct (interface_fields_defined n t attrs [] (add_visited t g))
      as [[fields g1] ->]; [rewrite Forall_fmap in Hrefs; exact Hrefs|].
    simpl. rewrite Hs. simpl. eauto.
  - unfold visit_alt_type. rewrite Hs. simpl.
    destruct (mapM_defined (_cpp_name n h) tys Hrefs) as [names ->]. simpl. eauto.
  - unfold visit_enum_type. rewrite Hs. simpl. eauto.
  - unfold visit_primitive_type. rewrite Hs. simpl. eauto.
  - unfold visit_frozen_array_type.
    destruct (_get_insert_model_id _ _) as [model_id g1].
    rewrite Hs. simpl. apply Forall_singleton in Hrefs as [e ->]. simpl. eauto.
  - eauto.
  - eauto.
Qed.
End handlers.

(** ** Names *)

Section names.
Context (h : gmap positive node).

Lemma cpp_name_S n t :
  _cpp_name (S n) h t =
    match h !! t with
    | None => None
    | Some (Alt tys) =>
        names ← mapM (_cpp_name n h) tys; Some (String.concat "Or" names)
    | Some (TyFrozenArray element_ty) =>
        s ← _cpp_name n h element_ty; Some ("FrozenArray_" +:+ s)
    | Some TyNone => Some "None"
    | Some (TyInterface name _) => Some name
    | Some (TyEnum name _) => Some name
    | Some (TyPrimitive name) => Some name
    | Some (TyOther name) => Some name
    end.
Proof. done. Qed.

(** A type below rank [r] is named within [r + 1] nested calls. *)
Lemma ranked_name_defined rank r t :
  closed h → name_ranked rank h → rank t ≤ r → is_Some (h !! t) →
  is_Some (_cpp_name (S r) h t).
Proof.
  intros Hcl Hrk. revert t. induction r as [|r IH]; intros t Hr [nd Hnd];
    rewrite cpp_name_S, Hnd;
    pose proof (Hrk t nd Hnd) as Hlt; pose proof (Hcl t nd Hnd) as Hst;
    simpl in Hlt, Hst; destruct nd; simpl in Hst; eauto.
  - destruct tys as [|c tys]; [simpl; eauto|].
    apply Forall_cons in Hlt as [? _]. lia.
  - lia.
  - assert (Forall (λ c, is_Some (_cpp_name (S r) h c)) tys) as HF.
    { apply Forall_forall. intros c Hc.
      apply IH; [|by apply (proj1 (Forall_forall _ _) Hst)].
      apply (proj1 (Forall_forall _ _) Hlt) in Hc. lia. }
    destruct (mapM_defined (_cpp_name (S r) h) tys HF) as [names ->]. simpl. eauto.
  - rewrite Forall_singleton in Hst.
    destruct (IH element_ty) as [s ->]; [lia|done|]. simpl. eauto.
Qed.

Lemma map_Forall_bound {A} (P : nat → positive → Prop) (m : gmap positive A) :
  (∀ n n' t, P n t → n ≤ n' → P n' t) →
  (∀ t x, m !! t = Some x → ∃ n, P n t) →
  ∃ k, map_Forall (λ t _, P k t) m.
Proof.
  intros Hmono. induction m as [|i x m Hi _ IH] using map_first_key_ind.
  - intros _. exists 0. apply map_Forall_empty.
  - intros Hall. destruct IH as [k Hk].
    { intros t y Ht. apply (Hall t y). rewrite lookup_insert_ne; [done|].
      intros ->. congruence. }
    destruct (Hall i x) as [n Hn]; [by rewrite lookup_insert_eq|].
    exists (n `max` k). apply map_Forall_insert; [done|]. split.
    + eapply Hmono; [done|lia].
    + intros t y Ht. eapply Hmono; [by eapply Hk|lia].
Qed.

Lemma ranked_names_defined rank :
  closed h → name_ranked rank h → ∃ k, names_defined k h.
Proof.
  intros Hcl Hrk. apply (map_Forall_bound (λ n t, is_Some (_cpp_name n h t))).
  - intros n n' t [s Hs] Hle. exists s. by eapply cpp_name_mono.
  - intros t nd Hnd. exists (S (rank t)).
    by apply (ranked_name_defined rank).
Qed.
End names.

(** ** The traversal *)

Section traversal.
Context (h : gmap positive node).
Implicit Types (g : generator) (t : positive) (order : list positive).

Lemma for_each_process_frame n order g g' :
  for_each (process n h) order g = Some g' →
  resolver g' = resolver g ∧
  visited_types g' = visited_types g ∪ list_to_set order ∧
  model_ids g ⊆ model_ids g'.
Proof.
  revert g. induction order as [|t order IH]; intros g; simpl.
  - intros [= <-]. split_and!; [done| |done]. set_solver.
  - destruct (process n h t g) as [g1|] eqn:E; [|done]. simpl.
    apply process_frame in E as (Hr & Hv & Hm).
    intros (-> & -> & ?)%IH. split_and!; [done| |by etrans].
    rewrite Hv. set_solver.
Qed.

Lemma children_stored t c : closed h → c ∈ children h t → is_Some (h !! c).
Proof.
  intros Hcl. unfold children. destruct (h !! t) as [nd|] eqn:E.
  - intros Hc. specialize (Hcl t nd E). simpl in Hcl.
    by apply (proj1 (Forall_forall _ _) Hcl).
  - by intros ?%elem_of_nil.
Qed.

Lemma unvisited_shrinks t (V : gset positive) :
  is_Some (h !! t) → t ∉ V →
  size (dom h ∖ (V ∪ {[t]})) < size (dom h ∖ V).
Proof.
  intros Ht%elem_of_dom Hn. apply subset_size. set_solver.
Qed.

(** Enough fuel for [visit]: one nested call per type not yet visited,
    then the calls of [_cpp_name]. *)
Lemma visit_terminates k m n t g :
  closed h → names_defined k h →
  size (dom h ∖ visited_types g) ≤ m → is_Some (h !! t) → m + k + 1 ≤ n →
  ∃ g', visit n h t g = Some g' ∧ visited_types g ⊆ visited_types g'.
Proof.
  intros Hcl Hnm. revert n t g.
  induction m as [|m IH]; intros n t g Hsz Ht Hn;
    (destruct n as [|n]; [lia|]); rewrite visit_unfold;
    (destruct (decide (t ∈ visited_types g)); [by eauto|]);
    pose proof (unvisited_shrinks t (visited_types g) Ht ltac:(done)) as Hlt;
    [lia|].
  destruct (process_defined h k n t g Hcl Hnm ltac:(lia) Ht) as [g1 Hg1].
  rewrite Hg1. simpl.
  destruct (process_frame _ _ _ _ _ Hg1) as (_ & Hv1 & _).
  assert (Hsz1 : size (dom h ∖ visited_types g1) ≤ m) by (rewrite Hv1; lia).
  assert (Hch : Forall (λ c, is_Some (h !! c)) (children h t)).
  { apply Forall_forall. intros c. by apply children_stored. }
  assert (Hsub : visited_types g ⊆ visited_types g1) by (rewrite Hv1; set_solver).
  clear Hg1 Hv1 Hlt Hsz. revert g1 Hsz1 Hsub.
  induction Hch as [|c l Hc _ IHl]; intros g1 Hsz1 Hsub; simpl; [by eauto|].
  destruct (IH n c g1 Hsz1 Hc ltac:(lia)) as (g2 & -> & Hsub2). simpl.
  apply IHl.
  - etrans; [|exact Hsz1]. apply subseteq_size. set_solver.
  - set_solver.
Qed.

Lemma for_each_visit_trace n l g g' :
  (∀ t g g', visit n h t g = Some g' →
     ∃ order, for_each (process n h) order g = Some g' ∧ visit_trace h [t] g order) →
  for_each (visit n h) l g = Some g' →
  ∃ order, for_each (process n h) order g = Some g' ∧ visit_trace h l g order.
Proof.
  intros IH. revert g. induction l as [|c l IHl]; intros g; simpl.
  - intros [= <-]. exists []. split; [done|].
    split; try (by intros; exfalso; eapply elem_of_nil); constructor.
  - destruct (visit n h c g) as [g2|] eqn:E; [|done]. simpl. intros Hl.
    destruct (IH _ _ _ E) as (o1 & Ho1 & T1).
    destruct (IHl _ Hl) as (o2 & Ho2 & T2).
    destruct (for_each_process_frame _ _ _ _ Ho1) as (_ & Hv2 & _).
    exists (o1 ++ o2). split; [by rewrite for_each_app, Ho1|].
    destruct T1 as [N1 W1 R1 C1 E1], T2 as [N2 W2 R2 C2 E2]. split.
    + apply NoDup_app. split_and!; [done| |done].
      intros x Hx1 Hx2. apply (W2 x Hx2). rewrite Hv2. set_solver.
    + intros x [?|Hx]%elem_of_app; [by auto|].
      intros Hin. apply (W2 x Hx). rewrite Hv2. set_solver.
    + intros x [Hx|Hx]%elem_of_app.
      * destruct (R1 x Hx) as (c' & ->%list_elem_of_singleton & ?).
        exists c. split; [left|done].
      * destruct (R2 x Hx) as (c' & ? & ?). exists c'. split; [by right|done].
    + intros c' [->|Hc']%elem_of_cons.
      * destruct (C1 c) as [?|?]; [set_solver|by left|right; set_solver].
      * destruct (C2 c' Hc') as [Hin|?]; [|right; set_solver].
        rewrite Hv2 in Hin. set_solver.
    + intros x y [Hx|Hx]%elem_of_app Hxy.
      * destruct (E1 x y Hx Hxy); [by left|right; set_solver].
      * destruct (E2 x y Hx Hxy) as [Hin|?]; [|right; set_solver].
        rewrite Hv2 in Hin. set_solver.
Qed.

Lemma visit_step_traced n t g g1 g' :
  (∀ t g g', visit n h t g = Some g' →
     ∃ order, for_each (process n h) order g = Some g' ∧ visit_trace h [t] g order) →
  t ∉ visited_types g → process n h t g = Some g1 →
  for_each (visit n h) (children h t) g1 = Some g' →
  ∃ order,
    for_each (process (S n) h) (t :: order) g = Some g' ∧
    visit_trace h [t] g (t :: order).
Proof.
  intros IH Hin E Hl.
  destruct (for_each_visit_trace _ _ _ _ IH Hl) as (o & Ho & [N W R C E']).
  destruct (process_frame _ _ _ _ _ E) as (_ & Hv1 & _).
  exists o. split.
  - simpl. rewrite (process_mono _ _ (S n) _ _ _ E); [|lia]. simpl.
    eapply for_each_mono; [|done]. intros x a b _ ?.
    eapply process_mono; [done|lia].
  - split.
    + constructor; [|done]. intros Ht. apply (W t Ht). rewrite Hv1. set_solver.
    + intros x [->|Hx]%elem_of_cons; [done|].
      intros Hx'. apply (W x Hx). rewrite Hv1. set_solver.
    + intros x [->|Hx]%elem_of_cons.
      * exists t. split; [left|]. apply rtc_refl.
      * destruct (R x Hx) as (c & Hc & Hcx). exists t. split; [left|].
        eapply rtc_l; [exact Hc|done].
    + intros c ->%list_elem_of_singleton. right. left.
    + intros x y [->|Hx]%elem_of_cons Hxy.
      * destruct (C y Hxy) as [Hy|?]; [|right; by right].
        rewrite Hv1 in Hy. set_solver.
      * destruct (E' x y Hx Hxy) as [Hy|?]; [|right; by right].
        rewrite Hv1 in Hy. set_solver.
Qed.

Lemma visit_traced n t g g' :
  visit n h t g = Some g' →
  ∃ order, for_each (process n h) order g = Some g' ∧ visit_trace h [t] g order.
Proof.
  revert t g g'. induction n as [|n IH]; intros t g g'; [done|].
  rewrite visit_unfold. destruct (decide (t ∈ visited_types g)) as [Hin|Hin].
  - intros [= <-]. exists []. split; [done|].
    split; try (by intros; exfalso; eapply elem_of_nil); [constructor|].
    intros c ->%list_elem_of_singleton. by left.
  - destruct (process n h t g) as [g1|] eqn:E; [|done]. simpl. intros Hl.
    destruct (visit_step_traced _ _ _ _ _ IH Hin E Hl) as (o & ? & ?).
    by exists (t :: o).
Qed.

(** A type not visited before is the first one its visit processes. *)
Lemma visit_traced_head n t g g' :
  visit n h t g = Some g' → t ∉ visited_types g →
  ∃ order,
    for_each (process n h) (t :: order) g = Some g' ∧
    visit_trace h [t] g (t :: order).
Proof.
  intros Hv Hin. destruct n as [|n]; [done|]. rewrite visit_unfold in Hv.
  destruct (decide _); [done|].
  destruct (process n h t g) as [g1|] eqn:E; [|done]. simpl in Hv.
  eapply visit_step_traced; [|done..]. apply visit_traced.
Qed.

(** When a traversal from an instance that has visited nothing returns,
    what it returns is the result of processing, one after the other and
    each once, the types that can be reached from the root. *)
Lemma visit_fresh_order n root g g' :
  visited_types g = ∅ → visit n h root g = Some g' →
  ∃ order,
    for_each (process n h) order g = Some g' ∧
    NoDup order ∧ head order = Some root ∧
    (∀ t, t ∈ order ↔ reachable h root t) ∧
    visited_types g' = list_to_set order.
Proof.
  intros Hv Hg'.
  destruct (visit_traced_head _ _ _ _ Hg') as (order & Ho & T);
    [rewrite Hv; set_solver|].
  destruct T as [N W R C E]. remember (root :: order) as order' eqn:Horder.
  exists order'. split_and!; [done..|by subst| |]; clear Horder order;
    rename order' into order.
  - intros t. split.
    + intros (c & ->%list_elem_of_singleton & ?)%R. done.
    + intros Hr. apply (rtc_ind_r (R:=edge h) (λ y, y ∈ order) root); [|clear t Hr|exact Hr].
      * destruct (C root) as [Hin|?]; [left| |done]. rewrite Hv in Hin. set_solver.
      * intros x y _ Hxy IH.
        destruct (E _ _ IH Hxy) as [Hin|?]; [|done]. rewrite Hv in Hin. set_solver.
  - destruct (for_each_process_frame _ _ _ _ Ho) as (_ & -> & _).
    rewrite Hv. set_solver.
Qed.

(** With all names within reach, such a traversal returns. *)
Lemma traversal_returns k root g n :
  closed h → names_defined k h → is_Some (h !! root) →
  size (dom h) + k + 1 ≤ n →
  is_Some (visit n h root g).
Proof.
  intros Hcl Hnm Hroot Hn.
  destruct (visit_terminates k (size (dom h)) n root g Hcl Hnm) as (g' & Hg' & _);
    [apply subseteq_size; set_solver|done|done|by eauto].
Qed.
End traversal.

(** ** The identifier allocator *)

Section allocator.
Implicit Types (g : generator) (k : positive * string).

Lemma alloc_ok_reset g : alloc_ok (reset g).
Proof. split; simpl; intros; try done; lia. Qed.

Lemma alloc_ok_ext g g' :
  model_ids g' = model_ids g → next_model_id g' = next_model_id g →
  alloc_ok g → alloc_ok g'.
Proof. intros Hm Hn [Hb Hi Hd]. split; rewrite ?Hm, ?Hn; auto. Qed.

Lemma get_insert_seen k g i :
  model_ids g !! k = Some i → _get_insert_model_id k g = (i, g).
Proof. unfold _get_insert_model_id. by intros ->. Qed.

Lemma get_insert_novel k g :
  model_ids g !! k = None →
  (_get_insert_model_id k g).1 = next_model_id g ∧
  model_ids (_get_insert_model_id k g).2 = <[k := next_model_id g]> (model_ids g) ∧
  next_model_id (_get_insert_model_id k g).2 = next_model_id g + 1.
Proof. unfold _get_insert_model_id. by intros ->. Qed.

Lemma get_insert_lookup k g :
  model_ids (_get_insert_model_id k g).2 !! k = Some (_get_insert_model_id k g).1.
Proof.
  unfold _get_insert_model_id. destruct (model_ids g !! k) eqn:E; simpl; [done|].
  by rewrite lookup_insert_eq.
Qed.

Lemma get_insert_subseteq k g :
  model_ids g ⊆ model_ids (_get_insert_model_id k g).2.
Proof.
  unfold _get_insert_model_id. destruct (model_ids g !! k) eqn:E; simpl; [done|].
  by apply insert_subseteq.
Qed.

Lemma get_insert_dom k g :
  dom (model_ids (_get_insert_model_id k g).2) = dom (model_ids g) ∪ {[k]}.
Proof.
  unfold _get_insert_model_id. destruct (model_ids g !! k) eqn:E; simpl.
  - apply elem_of_dom_2 in E. set_solver.
  - rewrite dom_insert_L. set_solver.
Qed.

Lemma get_insert_ok k g : alloc_ok g → alloc_ok (_get_insert_model_id k g).2.
Proof.
  intros [Hb Hi Hd]. unfold _get_insert_model_id.
  destruct (model_ids g !! k) eqn:E; simpl; [done|]. split; simpl.
  - intros k' i. rewrite lookup_insert. case_decide; simplify_eq.
    + intros [= <-]. lia.
    + intros ?%Hb. lia.
  - intros k1 k2 i. rewrite !lookup_insert.
    repeat case_decide; simplify_eq; try done.
    + intros [= <-] ?%Hb. lia.
    + intros ?%Hb [= <-]. lia.
    + apply Hi.
  - intros i Hlt. destruct (decide (i = next_model_id g)) as [->|].
    + exists k. by rewrite lookup_insert_eq.
    + destruct (Hd i) as [k' Hk']; [lia|]. exists k'.
      rewrite lookup_insert_ne; [done|]. congruence.
Qed.

(** The other fields of the instance are not touched. *)
Lemma get_insert_frame k g :
  let g' := (_get_insert_model_id k g).2 in
  resolver g' = resolver g ∧ visited_types g' = visited_types g ∧
  interfaces g' = interfaces g ∧ alts g' = alts g ∧ enums g' = enums g ∧
  primitives g' = primitives g ∧ frozen_arrays g' = frozen_arrays g.
Proof. unfold _get_insert_model_id. by destruct (model_ids g !! k). Qed.

Lemma allocate_all_cons k ks g :
  allocate_all (k :: ks) g =
    ((_get_insert_model_id k g).1 :: (allocate_all ks (_get_insert_model_id k g).2).1,
     (allocate_all ks (_get_insert_model_id k g).2).2).
Proof.
  simpl. destruct (_get_insert_model_id k g) as [i g1]. simpl.
  by destruct (allocate_all ks g1).
Qed.

Lemma allocate_all_spec ks g :
  alloc_ok g →
  let ids := (allocate_all ks g).1 in
  let g' := (allocate_all ks g).2 in
  alloc_ok g' ∧ model_ids g ⊆ model_ids g' ∧
  dom (model_ids g') = dom (model_ids g) ∪ list_to_set ks ∧
  Forall2 (λ k i, model_ids g' !! k = Some i) ks ids.
Proof.
  revert g. induction ks as [|k ks IH]; intros g Hok.
  - simpl. split_and!; [done|done|set_solver|constructor].
  - rewrite allocate_all_cons. simpl.
    destruct (IH _ (get_insert_ok k g Hok)) as (Hok' & Hsub & Hdom & HF).
    split_and!; [done| |..].
    + etrans; [apply get_insert_subseteq|done].
    + rewrite Hdom, get_insert_dom. set_solver.
    + constructor; [|done].
      eapply lookup_weaken; [apply get_insert_lookup|done].
Qed.

Lemma get_insert_size k g :
  next_model_id g = size (model_ids g) →
  next_model_id (_get_insert_model_id k g).2 =
    size (model_ids (_get_insert_model_id k g).2).
Proof.
  unfold _get_insert_model_id. destruct (model_ids g !! k) eqn:E; simpl; [done|].
  intros ->. rewrite map_size_insert_None; [lia|done].
Qed.

Lemma allocate_all_size ks g :
  next_model_id g = size (model_ids g) →
  next_model_id (allocate_all ks g).2 = size (model_ids (allocate_all ks g).2).
Proof.
  revert g. induction ks as [|k ks IH]; intros g Hs; [done|].
  rewrite allocate_all_cons. simpl. by apply IH, get_insert_size.
Qed.
End allocator.

(** ** The collections *)

Section collections.
Context (h : gmap positive node).
Implicit Types (g : generator) (t : positive) (order : list positive).

Lemma of_kind_app K l1 l2 : of_kind h K (l1 ++ l2) = of_kind h K l1 ++ of_kind h K l2.
Proof. apply filter_app. Qed.

Lemma of_kind_singleton K t :
  of_kind h K [t] = if decide (kind_of h t = Some K) then [t] else [].
Proof. unfold of_kind. rewrite filter_cons. by case_decide. Qed.

Lemma interface_row_mono g g' t a row :
  model_ids g ⊆ model_ids g' → interface_row h g t a row → interface_row h g' t a row.
Proof.
  intros Hsub (nm & i & ? & Hi & ->). exists nm, i.
  split_and!; [done| |done]. by eapply lookup_weaken.
Qed.

Lemma interface_entry_mono g g' t e :
  model_ids g ⊆ model_ids g' → interface_entry h g t e → interface_entry h g' t e.
Proof.
  intros Hsub (nm & attrs & ? & ? & HF). exists nm, attrs.
  split_and!; [done..|]. eapply Forall2_impl; [done|].
  intros a row. by apply interface_row_mono.
Qed.

Lemma frozen_array_entry_mono g g' t e :
  model_ids g ⊆ model_ids g' →
  frozen_array_entry h g t e → frozen_array_entry h g' t e.
Proof.
  intros Hsub (el & ? & ? & ? & ?). exists el.
  split_and!; [done..|]. by eapply lookup_weaken.
Qed.

(** The rows [visit_interface_type] builds: one per attribute. *)
Lemma interface_fields_rows n t attrs fields g fields' g' :
  interface_fields n h t attrs fields g = Some (fields', g') →
  ∃ rows, fields' = fields ++ rows ∧ Forall2 (interface_row h g' t) attrs rows ∧
    interfaces g' = interfaces g ∧ alts g' = alts g ∧ enums g' = enums g ∧
    primitives g' = primitives g ∧ frozen_arrays g' = frozen_arrays g ∧
    (alloc_ok g → alloc_ok g').
Proof.
  revert fields g. induction attrs as [|a attrs IH]; intros fields g; simpl.
  - intros [= <- <-]. exists []. rewrite app_nil_r.
    split_and!; first [done|constructor].
  - pose proof (get_insert_frame (t, attr_name a) g) as Hfr.
    pose proof (get_insert_lookup (t, attr_name a) g) as Hlk.
    pose proof (get_insert_ok (t, attr_name a) g) as Hok.
    destruct (_get_insert_model_id _ g) as [model_id g1]. simpl in Hfr, Hlk, Hok.
    destruct Hfr as (_ & _ & Hi1 & Ha1 & He1 & Hp1 & Hf1).
    destruct (_cpp_name n h (resolved_ty a)) as [s|] eqn:Hs; [|done]. simpl.
    intros Hrec. destruct (interface_fields_frame _ _ _ _ _ _ _ _ Hrec) as (_ & _ & Hsub).
    destruct (IH _ _ Hrec) as (rows & -> & HF & Hi & Ha & He & Hp & Hf & Hok').
    exists ((attr_name a, s, bool_literal (lazy a), model_id) :: rows).
    split_and!; try congruence.
    + by rewrite <-app_assoc.
    + constructor; [|done]. exists s, model_id.
      split_and!; [by exists n| |done]. by eapply lookup_weaken.
    + auto.
Qed.

(** What one processed type adds to the collections. *)
Lemma process_delta n t g g' :
  process n h t g = Some g' →
  ∃ di da de dp df,
    interfaces g' = interfaces g ++ di ∧ alts g' = alts g ++ da ∧
    enums g' = enums g ++ de ∧ primitives g' = primitives g ++ dp ∧
    frozen_arrays g' = frozen_arrays g ++ df ∧
    Forall2 (interface_entry h g') (of_kind h KInterface [t]) di ∧
    Forall2 (alt_entry h) (of_kind h KAlt [t]) da ∧
    Forall2 (enum_entry h) (of_kind h KEnum [t]) de ∧
    Forall2 (primitive_entry h) (of_kind h KPrimitive [t]) dp ∧
    Forall2 (frozen_array_entry h g') (of_kind h KFrozenArray [t]) df ∧
    (alloc_ok g → alloc_ok g').
Proof.
  unfold process. rewrite !of_kind_singleton. unfold kind_of.
  destruct (h !! t) as [[]|] eqn:Hnd; try done.
  - unfold visit_interface_type.
    destruct (interface_fields _ _ _ _ _ _) as [[fields g1]|] eqn:E; [|done].
    apply interface_fields_rows in E
      as (rows & -> & HF & Hi & Ha & He & Hp & Hf & Hok). simpl in *.
    destruct (_cpp_name n h t) as [s|] eqn:Hs; [|done]. intros [= <-]. simpl.
    exists [(s, rows)], [], [], [], []. rewrite Hi, Ha, He, Hp, Hf, !app_nil_r.
    split_and!; try done; try (by constructor).
    + constructor; [|constructor]. exists name, attrs.
      split_and!; [done| |done]. simpl.
      destruct n as [|n]; [done|]. simpl in Hs. rewrite Hnd in Hs. congruence.
    + intros Hg. eapply alloc_ok_ext; [..|apply Hok]; [done..|].
      by eapply alloc_ok_ext; [..|exact Hg].
  - unfold visit_alt_type.
    destruct (_cpp_name n h t) as [s|] eqn:Hs; [|done]. simpl.
    destruct (mapM _ _) as [subs|] eqn:Hsubs; [|done]. intros [= <-]. simpl.
    exists [], [(s, subs)], [], [], []. rewrite !app_nil_r.
    split_and!; try done; try (by constructor).
    + constructor; [|constructor]. exists tys.
      split_and!; [done|by exists n|]. simpl.
      apply mapM_Some in Hsubs. eapply Forall2_impl; [done|].
      intros x y ?. by exists n.
    + intros Hg. by eapply alloc_ok_ext; [..|exact Hg].
  - unfold visit_enum_type.
    destruct (_cpp_name n h t) as [s|] eqn:Hs; [|done]. intros [= <-]. simpl.
    exists [], [], [s], [], []. rewrite !app_nil_r.
    split_and!; try done; try (by constructor).
    + constructor; [|constructor]. exists values.
      destruct n as [|n]; [done|]. simpl in Hs. rewrite Hnd in Hs. congruence.
    + intros Hg. by eapply alloc_ok_ext; [..|exact Hg].
  - unfold visit_primitive_type.
    destruct (_cpp_name n h t) as [s|] eqn:Hs; [|done]. intros [= <-]. simpl.
    exists [], [], [], [s], []. rewrite !app_nil_r.
    split_and!; try done; try (by constructor).
    + constructor; [|constructor]. unfold primitive_entry.
      destruct n as [|n]; [done|]. simpl in Hs. rewrite Hnd in Hs. congruence.
    + intros Hg. by eapply alloc_ok_ext; [..|exact Hg].
  - unfold visit_frozen_array_type.
    pose proof (get_insert_frame (t, "list-length") (add_visited t g)) as Hfr.
    pose proof (get_insert_lookup (t, "list-length") (add_visited t g)) as Hlk.
    pose proof (get_insert_ok (t, "list-length") (add_visited t g)) as Hok.
    destruct (_get_insert_model_id _ _) as [model_id g1]. simpl in Hfr, Hlk, Hok.
    destruct Hfr as (_ & _ & Hi & Ha & He & Hp & Hf).
    destruct (_cpp_name n h t) as [s|] eqn:Hs; [|done]. simpl.
    destruct (_cpp_name n h element_ty) as [s'|] eqn:Hs'; [|done].
    intros [= <-]. simpl.
    exists [], [], [], [], [(s, s', model_id)]. rewrite Hi, Ha, He, Hp, Hf, !app_nil_r.
    split_and!; try done; try (by constructor).
    + constructor; [|constructor]. exists element_ty.
      split_and!; [done|by exists n|by exists n|done].
    + intros Hg. eapply alloc_ok_ext; [..|apply Hok]; [done..|].
      by eapply alloc_ok_ext; [..|exact Hg].
  - intros [= <-]. exists [], [], [], [], []. rewrite !app_nil_r.
    split_and!; try done; try (by constructor).
    intros Hg. by eapply alloc_ok_ext; [..|exact Hg].
  - intros [= <-]. exists [], [], [], [], []. rewrite !app_nil_r.
    split_and!; try done; try (by constructor).
    intros Hg. by eapply alloc_ok_ext; [..|exact Hg].
Qed.

Lemma for_each_process_collections n pre l g g' :
  collections_of h pre g → alloc_ok g →
  for_each (process n h) l g = Some g' →
  collections_of h (pre ++ l) g' ∧ alloc_ok g'.
Proof.
  revert pre g. induction l as [|t l IH]; intros pre g Hc Hok; simpl.
  - intros [= <-]. by rewrite app_nil_r.
  - destruct (process n h t g) as [g1|] eqn:E; [|done]. simpl. intros Hl.
    replace (pre ++ t :: l) with ((pre ++ [t]) ++ l) by (by rewrite <-app_assoc).
    destruct (process_frame _ _ _ _ _ E) as (_ & _ & Hsub).
    destruct (process_delta _ _ _ _ E)
      as (di & da & de & dp & df & Hi & Ha & He & Hp & Hf & Fi & Fa & Fe & Fp & Ff & Hok1).
    apply (IH (pre ++ [t]) g1); [|by auto|done].
    destruct Hc as [Ci Ca Ce Cp Cf].
    split; rewrite of_kind_app.
    + rewrite Hi. apply Forall2_app; [|done].
      eapply Forall2_impl; [done|]. intros ??. by apply interface_entry_mono.
    + rewrite Ha. by apply Forall2_app.
    + rewrite He. by apply Forall2_app.
    + rewrite Hp. by apply Forall2_app.
    + rewrite Hf. apply Forall2_app; [|done].
      eapply Forall2_impl; [done|]. intros ??. by apply frozen_array_entry_mono.
Qed.

Lemma collections_of_reset g : collections_of h [] (reset g).
Proof. split; constructor. Qed.

Lemma Forall2_NoDup {A B} (R : A → B → Prop) l k :
  Forall2 R l k → NoDup l →
  (∀ x y e, x ∈ l → y ∈ l → R x e → R y e → x = y) →
  NoDup k.
Proof.
  induction 1 as [|x e l k Hxe HF IH]; intros Hnd Hinj; [constructor|].
  apply NoDup_cons in Hnd as [Hx Hnd]. constructor.
  - intros [i Hi]%list_elem_of_lookup.
    destruct (Forall2_lookup_r _ _ _ _ _ HF Hi) as (y & Hy & Hye).
    apply list_elem_of_lookup_2 in Hy.
    apply Hx. rewrite (Hinj x y e); [done|left|by right|done|done].
  - apply IH; [done|]. intros y z e' ??. apply Hinj; by right.
Qed.

Lemma of_kind_elem K t order :
  t ∈ of_kind h K order ↔ t ∈ order ∧ kind_of h t = Some K.
Proof. unfold of_kind. rewrite list_elem_of_filter. tauto. Qed.

Lemma of_kind_NoDup K order : NoDup order → NoDup (of_kind h K order).
Proof. apply NoDup_filter. Qed.
End collections.

(** ** Whole runs *)

Section runs.
Implicit Types (h : gmap positive node) (g : generator) (r : Resolver).

(** A traversal started on an instance that has visited nothing and holds
    empty collections: what the collections hold when it returns. *)
Lemma fresh_run h root g n g' :
  visited_types g = ∅ → visit n h root (reset g) = Some g' →
  ∃ order,
    for_each (process n h) order (reset g) = Some g' ∧
    NoDup order ∧ head order = Some root ∧
    (∀ t, t ∈ order ↔ reachable h root t) ∧
    visited_types g' = list_to_set order ∧
    collections_of h order g' ∧ alloc_ok g'.
Proof.
  intros Hv Hg'.
  destruct (visit_fresh_order h n root (reset g) g' Hv Hg')
    as (order & Ho & N & Hd & R & V).
  exists order. split_and!; try done.
  - by eapply (for_each_process_collections h n [] order);
      [apply collections_of_reset|apply alloc_ok_reset|].
  - by eapply (for_each_process_collections h n [] order);
      [apply collections_of_reset|apply alloc_ok_reset|].
Qed.

Lemma collections_NoDup h order g :
  NoDup order → collections_of h order g → alloc_ok g →
  NoDup (frozen_arrays g) ∧
  (names_distinct h order →
     NoDup (interfaces g) ∧ NoDup (alts g) ∧ NoDup (enums g) ∧ NoDup (primitives g)).
Proof.
  intros N [Ci Ca Ce Cp Cf] Hok. split.
  - eapply Forall2_NoDup; [exact Cf|by apply of_kind_NoDup|].
    intros t1 t2 e _ _ (? & _ & _ & _ & H1) (? & _ & _ & _ & H2).
    pose proof (alloc_inj _ Hok _ _ _ H1 H2). congruence.
  - intros Hd. split_and!.
    + eapply Forall2_NoDup; [exact Ci|by apply of_kind_NoDup|].
      intros t1 t2 e [? K1]%of_kind_elem [? K2]%of_kind_elem
        (nm1 & a1 & H1 & E1 & _) (nm2 & a2 & H2 & E2 & _).
      apply (Hd t1 t2 e.1); [done|done|congruence| |].
      * exists 1. simpl. rewrite H1. congruence.
      * exists 1. simpl. rewrite H2. congruence.
    + eapply Forall2_NoDup; [exact Ca|by apply of_kind_NoDup|].
      intros t1 t2 e [? K1]%of_kind_elem [? K2]%of_kind_elem
        (? & _ & H1 & _) (? & _ & H2 & _).
      apply (Hd t1 t2 e.1); [done|done|congruence|done|done].
    + eapply Forall2_NoDup; [exact Ce|by apply of_kind_NoDup|].
      intros t1 t2 e [? K1]%of_kind_elem [? K2]%of_kind_elem [v1 H1] [v2 H2].
      apply (Hd t1 t2 e); [done|done|congruence| |].
      * exists 1. simpl. by rewrite H1.
      * exists 1. simpl. by rewrite H2.
    + eapply Forall2_NoDup; [exact Cp|by apply of_kind_NoDup|].
      intros t1 t2 e [? K1]%of_kind_elem [? K2]%of_kind_elem H1 H2.
      unfold primitive_entry in *.
      apply (Hd t1 t2 e); [done|done|congruence| |].
      * exists 1. simpl. by rewrite H1.
      * exists 1. simpl. by rewrite H2.
Qed.

(** The identifier table after a run. *)
Lemma generate_alloc_ok h n g g' : generate n h g = Returned g' → alloc_ok g'.
Proof.
  unfold generate.
  destruct (resolver_interfaces (resolver (reset g)) !! "Script") as [root|]; [|done].
  destruct (visit n h root (reset g)) as [g1|] eqn:Hv; [|done]. intros [= <-].
  destruct (visit_traced h _ _ _ _ Hv) as (order & Ho & _).
  by destruct (for_each_process_collections h n [] order (reset g) g1
                 (collections_of_reset h g) (alloc_ok_reset g) Ho).
Qed.
End runs.

(** The root is among the visited types once its visit has returned, and
    the visit neither forgets a visited type nor changes the resolver. *)
Lemma visit_marks_root (h : gmap positive node) n t g g' :
  visit n h t g = Some g' →
  t ∈ visited_types g' ∧ visited_types g ⊆ visited_types g' ∧
  resolver g' = resolver g.
Proof.
  intros Hv. destruct (visit_traced h _ _ _ _ Hv) as (order & Ho & T).
  destruct (for_each_process_frame h _ _ _ _ Ho) as (Hr & Hvis & _).
  split_and!; [|rewrite Hvis; set_solver|done].
  rewrite Hvis. destruct (trace_roots _ _ _ _ T t); [left|set_solver..].
Qed.

(** ** Enumeration members *)

Section enum_members.
Implicit Types (v : string) (c : ascii).

Lemma outside_table_iff v :
  (list_to_set (String.list_ascii_of_string v) : gset ascii) ∖ specials ≠ ∅ ↔
  ∃ c, c ∈ String.list_ascii_of_string v ∧ SYMBOL_NAMES !! c = None.
Proof.
  unfold specials. split.
  - intros [c Hc]%set_choose_L. exists c.
    apply elem_of_difference in Hc as [Hc Hn].
    split; [by apply elem_of_list_to_set in Hc|by apply not_elem_of_dom].
  - intros (c & Hc & Hn) Hempty.
    assert (c ∈ (list_to_set (String.list_ascii_of_string v) : gset ascii)
              ∖ dom SYMBOL_NAMES) as Hin.
    { apply elem_of_difference. split; [by apply elem_of_list_to_set|].
      by apply not_elem_of_dom. }
    rewrite Hempty in Hin. by apply elem_of_empty in Hin.
Qed.

Lemma existsb_outside v :
  existsb (λ c, negb (in_symbol_table c)) (String.list_ascii_of_string v) = true ↔
  ∃ c, c ∈ String.list_ascii_of_string v ∧ SYMBOL_NAMES !! c = None.
Proof.
  rewrite existsb_exists. split; intros (c & Hc & Hn); exists c.
  - apply list_elem_of_In in Hc. split; [done|].
    unfold in_symbol_table in Hn. apply negb_true_iff in Hn.
    apply bool_decide_eq_false in Hn. by apply eq_None_not_Some.
  - split; [by apply list_elem_of_In|]. unfold in_symbol_table.
    apply negb_true_iff, bool_decide_eq_false. rewrite Hn. by intros [? ?].
Qed.

(** The table is only read at its keys. *)
Lemma make_name_lookups_defined v :
  (list_to_set (String.list_ascii_of_string v) : gset ascii) ∖ specials = ∅ →
  Forall (λ c, is_Some (SYMBOL_NAMES !! c)) (String.list_ascii_of_string v).
Proof.
  intros Hempty. apply Forall_forall. intros c Hc.
  destruct (SYMBOL_NAMES !! c) eqn:E; [by eauto|].
  destruct (proj2 (outside_table_iff v)); by eauto.
Qed.

(** On every character the code arithmetic of [upper_char] gives the
    capital. *)
Lemma upper_char_capital c : upper_char c = capital c.
Proof. destruct c as [[] [] [] [] [] [] [] []]; by vm_compute. Qed.

Lemma upper_sub_sanitized v : upper (sub_hyphen_space v) = sanitized v.
Proof.
  unfold sanitized. induction v as [|c v IH]; [done|].
  simpl. rewrite IH, upper_char_capital. f_equal. f_equal.
  destruct (decide _) as [[->| ->]|Hn]; [done..|].
  rewrite bool_decide_eq_false_2; [done|]. tauto.
Qed.

(** The method and the rule of the specification agree. *)
Lemma make_name_rule v : make_name v = member_name_rule v.
Proof.
  unfold make_name, member_name_rule.
  destruct (decide _) as [Hout|Hin];
    destruct (existsb _ _) eqn:E.
  - apply upper_sub_sanitized.
  - apply outside_table_iff, existsb_outside in Hout. congruence.
  - apply existsb_outside, outside_table_iff in E. done.
  - reflexivity.
Qed.

Lemma sorted_perm values : sorted values ≡ₚ values.
Proof. apply merge_sort_Permutation. Qed.


Lemma ascii_compare_codes c1 c2 :
  match Ascii.compare c1 c2 with
  | Eq => c1 = c2
  | Lt => nat_of_ascii c1 < nat_of_ascii c2
  | Gt => nat_of_ascii c2 < nat_of_ascii c1
  end.
Proof.
  unfold Ascii.compare, nat_of_ascii.
  destruct (N.compare_spec (N_of_ascii c1) (N_of_ascii c2)) as [Heq| |]; [|lia..].
  by rewrite <-(ascii_N_embedding c1), Heq, ascii_N_embedding.
Qed.

(** The order [sorted] uses is the lexicographic order on codes. *)
Lemma string_le_lex s1 s2 : String.le s1 s2 ↔ lex_le s1 s2.
Proof.
  unfold String.le, String.leb. revert s2.
  induction s1 as [|c1 s1 IH]; intros [|c2 s2]; simpl; try done.
  pose proof (ascii_compare_codes c1 c2) as Hc.
  destruct (Ascii.compare c1 c2).
  - subst. rewrite IH. split; [by right|]. intros [?|[_ ?]]; [lia|done].
  - split; [by left|done].
  - split; [done|]. intros [?|[-> _]]; lia.
Qed.

Lemma sorted_lex values : StronglySorted lex_le (sorted values).
Proof.
  pose proof (StronglySorted_merge_sort String.le values) as Hs.
  unfold sorted. induction Hs as [|x l _ IH HF]; constructor; [done|].
  eapply Forall_impl; [done|]. intros y. apply string_le_lex.
Qed.

End enum_members.

(** ** Names of values made of symbols *)

Section symbol_names.
Implicit Types (v s : string) (c : ascii).

(** Every table name is non-empty and holds no underscore, and no two
    symbols have the same table name. *)
Lemma table_names_plain :
  map_Forall (λ _ nm, nm ≠ "" ∧ underscore_free nm) SYMBOL_NAMES.
Proof. unfold underscore_free. compute_done. Qed.

Lemma table_names_inj :
  map_Forall (λ c1 n1,
    map_Forall (λ c2 n2, n1 = n2 → c1 = c2) SYMBOL_NAMES) SYMBOL_NAMES.
Proof. compute_done. Qed.

Lemma underscore_free_cons c s :
  underscore_free (String c s) ↔ c ≠ "_"%char ∧ underscore_free s.
Proof. unfold underscore_free. simpl. rewrite not_elem_of_cons. naive_solver. Qed.

Lemma append_nil_l s : "" +:+ s = s.
Proof. done. Qed.

Lemma append_cons c a s : String c a +:+ s = String c (a +:+ s).
Proof. done. Qed.

Lemma append_underscore_inj a b x y :
  underscore_free a → underscore_free b →
  a +:+ String "_" x = b +:+ String "_" y → a = b ∧ x = y.
Proof.
  revert b. induction a as [|c a IH]; intros [|d b] Ha Hb;
    rewrite ?append_nil_l, ?append_cons.
  - by intros [= ->].
  - intros [= <- _]. by apply underscore_free_cons in Hb as [? _].
  - intros [= -> _]. by apply underscore_free_cons in Ha as [? _].
  - intros [= -> Heq]. apply underscore_free_cons in Ha as [_ Ha].
    apply underscore_free_cons in Hb as [_ Hb].
    destruct (IH b Ha Hb Heq) as [-> ->]. done.
Qed.

Lemma append_underscore_not_free a y : ¬ underscore_free (a +:+ String "_" y).
Proof.
  induction a as [|c a IH]; rewrite ?append_nil_l, ?append_cons.
  - intros [? _]%underscore_free_cons. done.
  - intros [_ ?]%underscore_free_cons. done.
Qed.

Lemma concat_cons2 x y l :
  String.concat "_" (x :: y :: l) = x +:+ String "_" (String.concat "_" (y :: l)).
Proof. done. Qed.

(** A join with underscores of plain names can be split again. *)
Lemma concat_underscore_inj l1 l2 :
  Forall (λ nm, nm ≠ "" ∧ underscore_free nm) l1 →
  Forall (λ nm, nm ≠ "" ∧ underscore_free nm) l2 →
  String.concat "_" l1 = String.concat "_" l2 → l1 = l2.
Proof.
  intros H1. revert l2. induction H1 as [|a l1 [Ha Hfa] H1 IH]; intros l2 H2.
  - destruct H2 as [|b l2 [Hb _] _]; [done|].
    destruct l2 as [|b' l2]; [simpl; congruence|].
    rewrite concat_cons2. destruct b; [done|]. by rewrite append_cons.
  - destruct H2 as [|b l2 [Hb Hfb] H2].
    { destruct l1 as [|a' l1]; [simpl; congruence|].
      rewrite concat_cons2. destruct a; [done|]. by rewrite append_cons. }
    destruct l1 as [|a' l1], l2 as [|b' l2].
    + simpl. by intros ->.
    + rewrite concat_cons2. intros Heq. exfalso.
      eapply append_underscore_not_free. by rewrite <-Heq.
    + rewrite concat_cons2. intros Heq. exfalso.
      eapply append_underscore_not_free. by rewrite Heq.
    + rewrite !concat_cons2. intros Heq.
      destruct (append_underscore_inj _ _ _ _ Hfa Hfb Heq) as [-> Hrest].
      by rewrite (IH _ H2 Hrest).
Qed.

Lemma symbols_only_make_name v :
  symbols_only v →
  make_name v = String.concat "_" (table_name <$> String.list_ascii_of_string v).
Proof.
  intros Hs. rewrite make_name_rule. unfold member_name_rule.
  destruct (existsb _ _) eqn:E; [|done].
  apply existsb_outside in E as (c & Hc & Hn).
  apply (proj1 (Forall_forall _ _) Hs) in Hc as [? ?]. congruence.
Qed.

Lemma table_name_fmap_inj (l1 l2 : list ascii) :
  Forall (λ c, is_Some (SYMBOL_NAMES !! c)) l1 →
  Forall (λ c, is_Some (SYMBOL_NAMES !! c)) l2 →
  table_name <$> l1 = table_name <$> l2 → l1 = l2.
Proof.
  intros H1. revert l2. induction H1 as [|c1 l1 [n1 Hc1] _ IH];
    intros l2 H2; destruct H2 as [|c2 l2 [n2 Hc2] H2]; try done.
  simpl. intros [= Hn Hrest]. unfold table_name in Hn.
  rewrite Hc1, Hc2 in Hn. simpl in Hn.
  rewrite (table_names_inj c1 n1 Hc1 c2 n2 Hc2 Hn). f_equal. by apply IH.
Qed.

Lemma table_name_fmap_plain (l : list ascii) :
  Forall (λ c, is_Some (SYMBOL_NAMES !! c)) l →
  Forall (λ nm, nm ≠ "" ∧ underscore_free nm) (table_name <$> l).
Proof.
  intros H. apply Forall_fmap. eapply Forall_impl; [done|].
  intros c [nm Hnm]. simpl. unfold table_name. rewrite Hnm.
  exact (table_names_plain c nm Hnm).
Qed.

(** On values made of table symbols only, [make_name] is injective. *)
Lemma make_name_inj_on_symbols v1 v2 :
  symbols_only v1 → symbols_only v2 → make_name v1 = make_name v2 → v1 = v2.
Proof.
  intros H1 H2. rewrite !symbols_only_make_name by done. intros Heq.
  apply concat_underscore_inj in Heq; [|by apply table_name_fmap_plain..].
  apply table_name_fmap_inj in Heq; [|done..].
  by rewrite <-(String.string_of_list_ascii_of_string v1), Heq,
    String.string_of_list_ascii_of_string.
Qed.
End symbol_names.

(** ** Two runs *)

Section renaming.
Context (f : positive → positive) `{!Inj (=) (=) f}.
Context (h : gmap positive node).
Implicit Types (g : generator) (t : positive).

Lemma lookup_rename_heap t : rename_heap f h !! f t = rename_node f <$> h !! t.
Proof. unfold rename_heap. by rewrite lookup_kmap, lookup_fmap. Qed.

Lemma mapM_fmap_ext {A B C} (k : A → B) (p : B → option C) (q : A → option C) l :
  (∀ x, p (k x) = q x) → mapM p (k <$> l) = mapM q l.
Proof.
  intros Hpq. induction l as [|x l IH]; [done|].
  csimpl. rewrite Hpq. destruct (q x); [|done]. csimpl.
  exact (f_equal (λ o, o ≫= λ k0, mret (_ :: k0)) IH).
Qed.

(** Names do not depend on addresses. *)
Lemma cpp_name_rename n t : _cpp_name n (rename_heap f h) (f t) = _cpp_name n h t.
Proof.
  revert t. induction n as [|n IH]; intros t; [done|].
  rewrite !cpp_name_S, lookup_rename_heap.
  destruct (h !! t) as [[]|]; simpl; try done.
  - by rewrite (mapM_fmap_ext f _ (_cpp_name n h)).
  - by rewrite IH.
Qed.

Lemma get_insert_rename t s g :
  _get_insert_model_id (f t, s) (rename_generator f g) =
    ((_get_insert_model_id (t, s) g).1,
     rename_generator f (_get_insert_model_id (t, s) g).2).
Proof.
  assert (Inj (=) (=) (prod_map f (@id string))) as Hinj by apply _.
  unfold _get_insert_model_id. simpl.
  change (f t, s) with (prod_map f id (t, s)).
  rewrite (lookup_kmap (prod_map f id)).
  destruct (model_ids g !! (t, s)); [done|]. simpl.
  unfold rename_generator. simpl.
  by rewrite (kmap_insert (prod_map f id)).
Qed.

Lemma interface_fields_rename n t attrs fields g :
  interface_fields n (rename_heap f h) (f t) (rename_attr f <$> attrs) fields
    (rename_generator f g) =
  prod_map id (rename_generator f) <$> interface_fields n h t attrs fields g.
Proof.
  revert fields g. induction attrs as [|a attrs IH]; intros fields g; [done|].
  simpl. rewrite get_insert_rename.
  destruct (_get_insert_model_id (t, attr_name a) g) as [model_id g1]. simpl.
  rewrite cpp_name_rename. destruct (_cpp_name n h (resolved_ty a)); [|done].
  simpl. apply IH.
Qed.

Lemma add_visited_rename t g :
  add_visited (f t) (rename_generator f g) = rename_generator f (add_visited t g).
Proof.
  unfold add_visited, rename_generator. simpl.
  by rewrite set_map_union_L, set_map_singleton_L.
Qed.

Lemma process_rename n t g :
  process n (rename_heap f h) (f t) (rename_generator f g) =
    rename_generator f <$> process n h t g.
Proof.
  unfold process. rewrite lookup_rename_heap, add_visited_rename.
  destruct (h !! t) as [[]|]; simpl; try done.
  - unfold visit_interface_type. rewrite interface_fields_rename, cpp_name_rename.
    destruct (interface_fields n h t attrs [] _) as [[fields g1]|]; [|done].
    simpl. by destruct (_cpp_name n h t).
  - unfold visit_alt_type. rewrite cpp_name_rename.
    destruct (_cpp_name n h t); [|done]. simpl.
    rewrite (mapM_fmap_ext f _ (_cpp_name n h)); [|apply cpp_name_rename].
    by destruct (mapM _ _).
  - unfold visit_enum_type. rewrite cpp_name_rename.
    by destruct (_cpp_name n h t).
  - unfold visit_primitive_type. rewrite cpp_name_rename.
    by destruct (_cpp_name n h t).
  - unfold visit_frozen_array_type. rewrite get_insert_rename.
    destruct (_get_insert_model_id _ _) as [model_id g1]. simpl.
    rewrite !cpp_name_rename. destruct (_cpp_name n h t); [|done]. simpl.
    by destruct (_cpp_name n h element_ty).
Qed.

Lemma children_rename t : children (rename_heap f h) (f t) = f <$> children h t.
Proof.
  unfold children. rewrite lookup_rename_heap.
  destruct (h !! t) as [[]|]; simpl; try done.
  rewrite <-!list_fmap_compose. done.
Qed.

Lemma visited_rename t g :
  f t ∈ visited_types (rename_generator f g) ↔ t ∈ visited_types g.
Proof.
  simpl. rewrite elem_of_map. split; [|by eauto].
  by intros (x & ->%(inj f) & ?).
Qed.

(** The traversal does not depend on addresses. *)
Lemma visit_rename n t g :
  visit n (rename_heap f h) (f t) (rename_generator f g) =
    rename_generator f <$> visit n h t g.
Proof.
  revert t g. induction n as [|n IH]; intros t g; [done|].
  rewrite !visit_unfold.
  destruct (decide (t ∈ visited_types g)) as [Hin|Hin].
  { rewrite decide_True; [done|]. by apply visited_rename. }
  rewrite decide_False; [|by rewrite visited_rename].
  rewrite process_rename, children_rename.
  destruct (process n h t g) as [g1|]; [|done]. simpl.
  generalize (children h t). intros l. revert g1.
  induction l as [|c l IHl]; intros g1; [done|].
  simpl. rewrite IH. destruct (visit n h c g1); [|done]. simpl. apply IHl.
Qed.
End renaming.

(** Two calls of [visit] that return, return the same instance. *)
Lemma visit_agree (h : gmap positive node) n m t g g1 g2 :
  visit n h t g = Some g1 → visit m h t g = Some g2 → g1 = g2.
Proof.
  intros H1 H2.
  apply (visit_mono _ _ (n `max` m)) in H1; [|lia].
  apply (visit_mono _ _ (n `max` m)) in H2; [|lia]. congruence.
Qed.

Lemma rename_new_generator (f : positive → positive) (r : Resolver) :
  new_generator (rename_resolver f r) = rename_generator f (new_generator r).
Proof.
  unfold new_generator, rename_generator. simpl.
  by rewrite set_map_empty, kmap_empty.
Qed.

(** ** Texts *)

Section texts.
Implicit Types (s a b x y : string) (c : ascii).

Lemma chars_app a b :
  String.list_ascii_of_string (a +:+ b) =
    String.list_ascii_of_string a ++ String.list_ascii_of_string b.
Proof. induction a as [|c a IH]; [done|]. simpl. by rewrite IH. Qed.

Lemma chars_inj a b :
  String.list_ascii_of_string a = String.list_ascii_of_string b → a = b.
Proof.
  intros Heq. by rewrite <-(String.string_of_list_ascii_of_string a), Heq,
    String.string_of_list_ascii_of_string.
Qed.

Lemma append_assoc a b x : (a +:+ b) +:+ x = a +:+ b +:+ x.
Proof. apply chars_inj. by rewrite !chars_app, app_assoc. Qed.

Lemma append_inv_l a x y : a +:+ x = a +:+ y → x = y.
Proof.
  intros Heq%(f_equal String.list_ascii_of_string). rewrite !chars_app in Heq.
  by apply app_inv_head, chars_inj in Heq.
Qed.

Lemma append_inv_r a b x : a +:+ x = b +:+ x → a = b.
Proof.
  intros Heq%(f_equal String.list_ascii_of_string). rewrite !chars_app in Heq.
  by apply app_inv_tail, chars_inj in Heq.
Qed.

Lemma char_free_app c a b : char_free c (a +:+ b) ↔ char_free c a ∧ char_free c b.
Proof. unfold char_free. rewrite chars_app, not_elem_of_app. done. Qed.

Lemma char_free_cons c d s : char_free c (String d s) ↔ d ≠ c ∧ char_free c s.
Proof. unfold char_free. simpl. rewrite not_elem_of_cons. naive_solver. Qed.

(** A text is cut at the first occurrence of a character. *)
Lemma split_at_char c a b x y :
  char_free c a → char_free c b →
  a +:+ String c x = b +:+ String c y → a = b ∧ x = y.
Proof.
  revert b. induction a as [|d a IH]; intros [|e b] Ha Hb;
    rewrite ?append_nil_l, ?append_cons.
  - by intros [= ->].
  - intros [= <- _]. by apply char_free_cons in Hb as [? _].
  - intros [= -> _]. by apply char_free_cons in Ha as [? _].
  - intros [= -> Heq]. apply char_free_cons in Ha as [_ Ha].
    apply char_free_cons in Hb as [_ Hb].
    destruct (IH b Ha Hb Heq) as [-> ->]. done.
Qed.

Lemma concat_cons_cons sep x y l :
  String.concat sep (x :: y :: l) = x +:+ sep +:+ String.concat sep (y :: l).
Proof. done. Qed.

(** Rows joined by a separator that ends in a character the rows do not
    hold can be told apart again. *)
Lemma concat_sep_inj c pre l1 l2 :
  char_free c pre →
  Forall (λ s, s ≠ "" ∧ char_free c s) l1 →
  Forall (λ s, s ≠ "" ∧ char_free c s) l2 →
  String.concat (pre +:+ String c "") l1 = String.concat (pre +:+ String c "") l2 →
  l1 = l2.
Proof.
  intros Hpre H1. revert l2.
  assert (Hcut : ∀ x l, String.concat (pre +:+ String c "") (x :: l) =
            match l with
            | [] => x
            | _ => (x +:+ pre) +:+ String c (String.concat (pre +:+ String c "") l)
            end).
  { intros x [|y l]; [done|]. rewrite concat_cons_cons.
    by rewrite !append_assoc. }
  induction H1 as [|a l1 [Ha Hfa] H1 IH]; intros l2 H2.
  - destruct H2 as [|b l2 [Hb Hfb] _]; [done|]. rewrite Hcut. simpl.
    destruct l2; [congruence|]. intros Heq. symmetry in Heq.
    destruct b; [done|]. by rewrite !append_cons in Heq.
  - destruct H2 as [|b l2 [Hb Hfb] H2].
    { rewrite Hcut. simpl. destruct l1; [congruence|]. intros Heq.
      destruct a; [done|]. by rewrite !append_cons in Heq. }
    rewrite !Hcut. destruct l1 as [|a' l1], l2 as [|b' l2].
    + by intros ->.
    + intros ->. apply char_free_app in Hfa as [_ Hfa].
      by apply char_free_cons in Hfa as [? _].
    + intros <-. apply char_free_app in Hfb as [_ Hfb].
      by apply char_free_cons in Hfb as [? _].
    + intros Heq.
      destruct (split_at_char c _ _ _ _
                  (proj2 (char_free_app c a pre) (conj Hfa Hpre))
                  (proj2 (char_free_app c b pre) (conj Hfb Hpre)) Heq)
        as [->%append_inv_r Hrest].
      by rewrite (IH _ H2 Hrest).
Qed.

Lemma count_char_app c a b :
  count_char c (a +:+ b) = count_char c a + count_char c b.
Proof. unfold count_char. by rewrite chars_app, filter_app, length_app. Qed.

Lemma count_char_free c s : char_free c s → count_char c s = 0.
Proof.
  unfold char_free, count_char. induction (String.list_ascii_of_string s) as [|d l IH];
    [done|].
  intros [? ?]%not_elem_of_cons. rewrite filter_cons_False by done. auto.
Qed.

(** The occurrences in joined rows are those in the rows, when the
    separator has none. *)
Lemma count_char_concat c sep (l : list string) k :
  count_char c sep = 0 → Forall (λ s, count_char c s = k) l →
  count_char c (String.concat sep l) = k * length l.
Proof.
  intros Hsep. induction 1 as [|x l Hx Hl IH]; [unfold count_char; simpl; lia|].
  destruct l as [|y l].
  - simpl. lia.
  - rewrite concat_cons_cons, !count_char_app, Hsep, IH, Hx. simpl. lia.
Qed.
End texts.

(** ** The characters of member names *)

Section member_names.
Implicit Types (v s : string) (c : ascii).

(** The character [make_name] puts for [c] in a value with a character
    outside the table. *)
Lemma sanitized_char_plain c :
  plain_char (upper_char (if decide (c = "-"%char ∨ c = " "%char)
                          then "_"%char else c)).
Proof.
  destruct c as [[] [] [] [] [] [] [] []];
    apply (bool_decide_unpack _); vm_compute; exact I.
Qed.

Lemma sanitized_char_outside c :
  SYMBOL_NAMES !! c = None →
  SYMBOL_NAMES !! upper_char (if decide (c = "-"%char ∨ c = " "%char)
                              then "_"%char else c) = None.
Proof.
  destruct c as [[] [] [] [] [] [] [] []]; vm_compute; congruence.
Qed.

Lemma plain_char_fixed c :
  plain_char c →
  upper_char (if decide (c = "-"%char ∨ c = " "%char) then "_"%char else c) = c.
Proof.
  destruct c as [[] [] [] [] [] [] [] []]; vm_compute; try done;
    intros (? & ? & Hl); try done; exfalso; apply Hl; split;
    repeat constructor.
Qed.

Lemma chars_upper_sub v :
  String.list_ascii_of_string (upper (sub_hyphen_space v)) =
    (λ c, upper_char (if decide (c = "-"%char ∨ c = " "%char)
                      then "_"%char else c))
      <$> String.list_ascii_of_string v.
Proof. induction v as [|c v IH]; [done|]. simpl. by rewrite IH. Qed.

Lemma table_names_letters :
  map_Forall (λ _ nm,
    Forall plain_char (String.list_ascii_of_string nm) ∧
    ∃ d rest, nm = String d rest ∧ SYMBOL_NAMES !! d = None) SYMBOL_NAMES.
Proof.
  apply map_Forall_lookup. intros c nm Hc. split.
  - revert c nm Hc. apply map_Forall_lookup. compute_done.
  - destruct nm as [|d rest].
    + by destruct (proj1 (table_names_plain c "" Hc)).
    + exists d, rest. split; [done|]. revert c d rest Hc.
      assert (map_Forall (λ _ nm,
                match nm with
                | String d _ => SYMBOL_NAMES !! d = None
                | EmptyString => True
                end) SYMBOL_NAMES) as Hall.
      { apply map_Forall_to_list.
        let l := eval vm_compute in (map_to_list SYMBOL_NAMES) in
        change (map_to_list SYMBOL_NAMES) with l.
        repeat constructor. }
      intros c d rest Hc. exact (Hall c _ Hc).
Qed.

Lemma chars_concat_Forall (P : ascii → Prop) sep (l : list string) :
  Forall P (String.list_ascii_of_string sep) →
  Forall (λ s, Forall P (String.list_ascii_of_string s)) l →
  Forall P (String.list_ascii_of_string (String.concat sep l)).
Proof.
  intros Hsep. induction 1 as [|x l Hx Hl IH]; [constructor|].
  destruct l as [|y l]; [done|].
  rewrite concat_cons_cons, !chars_app. by rewrite !Forall_app.
Qed.

(** The two branches of [make_name]. *)
Lemma make_name_cases v :
  (symbols_only v ∧
   make_name v = String.concat "_" (table_name <$> String.list_ascii_of_string v)) ∨
  ((∃ c, c ∈ String.list_ascii_of_string v ∧ SYMBOL_NAMES !! c = None) ∧
   make_name v = upper (sub_hyphen_space v)).
Proof.
  unfold make_name. destruct (decide _) as [Hout|Hin].
  - right. split; [by apply outside_table_iff|done].
  - left. split; [|done]. apply make_name_lookups_defined.
    by destruct (decide ((list_to_set (String.list_ascii_of_string v) : gset ascii)
                           ∖ specials = ∅)).
Qed.
End member_names.

(** ** Values with the same member name *)

Section clashes.
Implicit Types (v w : string) (c d : ascii).

Lemma all_chars_complete c : c ∈ all_chars.
Proof.
  unfold all_chars. apply list_elem_of_fmap. exists (nat_of_ascii c).
  split; [by rewrite ascii_nat_embedding|].
  apply elem_of_seq. pose proof (nat_ascii_bounded c). lia.
Qed.

(** [make_name] sends two characters of values with a character outside
    the table to the same character exactly when they are alike. *)
Lemma renamed_char_alike c d :
  upper_char (if decide (c = "-"%char ∨ c = " "%char) then "_"%char else c) =
  upper_char (if decide (d = "-"%char ∨ d = " "%char) then "_"%char else d)
  ↔ alike_char c d.
Proof.
  assert (Forall (λ c, Forall (λ d,
            upper_char (if decide (c = "-"%char ∨ c = " "%char)
                        then "_"%char else c) =
            upper_char (if decide (d = "-"%char ∨ d = " "%char)
                        then "_"%char else d)
            ↔ alike_char c d) all_chars) all_chars) as Hall by compute_done.
  exact (proj1 (Forall_forall _ _)
           (proj1 (Forall_forall _ _) Hall c (all_chars_complete c))
           d (all_chars_complete d)).
Qed.

Lemma renamed_chars_alike (l1 l2 : list ascii) :
  (λ c, upper_char (if decide (c = "-"%char ∨ c = " "%char)
                    then "_"%char else c)) <$> l1 =
  (λ c, upper_char (if decide (c = "-"%char ∨ c = " "%char)
                    then "_"%char else c)) <$> l2
  ↔ Forall2 alike_char l1 l2.
Proof.
  revert l2. induction l1 as [|c l1 IH]; intros [|d l2];
    rewrite ?fmap_nil, ?fmap_cons.
  - split; [constructor|done].
  - split; [done|]. by intros ?%Forall2_nil_cons_inv.
  - split; [done|]. by intros ?%Forall2_cons_nil_inv.
  - rewrite Forall2_cons, <-IH, <-renamed_char_alike. split.
    + by intros [= ? ?].
    + by intros [-> ->].
Qed.

Lemma upper_sub_alike v w :
  upper (sub_hyphen_space v) = upper (sub_hyphen_space w) ↔ alike v w.
Proof.
  unfold alike. rewrite <-renamed_chars_alike, <-!chars_upper_sub. split.
  - by intros ->.
  - apply chars_inj.
Qed.

(** The spelled-out symbols of a value are left as they are by the
    renaming of values with a character outside the table. *)
Lemma spelled_fixed w :
  symbols_only w → upper (sub_hyphen_space (spelled w)) = spelled w.
Proof.
  intros Hs. apply chars_inj. rewrite chars_upper_sub.
  assert (Forall plain_char (String.list_ascii_of_string (spelled w))) as Hplain.
  { apply chars_concat_Forall; [compute_done|].
    apply Forall_fmap. eapply Forall_impl; [exact Hs|].
    intros c [nm Hnm]. simpl. unfold table_name. rewrite Hnm. simpl.
    exact (proj1 (table_names_letters c nm Hnm)). }
  revert Hplain. generalize (String.list_ascii_of_string (spelled w)). intros l.
  induction 1 as [|c l Hc _ IH]; [done|].
  rewrite fmap_cons, IH. f_equal. by apply plain_char_fixed.
Qed.

Lemma outside_not_symbols v :
  (∃ c, c ∈ String.list_ascii_of_string v ∧ SYMBOL_NAMES !! c = None) →
  ¬ symbols_only v.
Proof.
  intros (c & Hc & Hout) Hs.
  apply (proj1 (Forall_forall _ _) Hs) in Hc as [? ?]. congruence.
Qed.

(** Two distinct values have the same member name exactly when they
    clash. *)
Lemma make_name_clash v w :
  v ≠ w → (make_name v = make_name w ↔ clash v w).
Proof.
  intros Hne. unfold clash.
  destruct (make_name_cases v) as [[Hv Ev]|[Hv%outside_not_symbols Ev]];
    destruct (make_name_cases w) as [[Hw Ew]|[Hw%outside_not_symbols Ew]].
  - split; [|tauto]. intros Heq.
    destruct Hne. by apply make_name_inj_on_symbols.
  - rewrite Ev, Ew. fold (spelled v).
    assert (spelled v = upper (sub_hyphen_space w) ↔ alike (spelled v) w)
      by (by rewrite <-upper_sub_alike, spelled_fixed).
    tauto.
  - rewrite Ev, Ew. fold (spelled w).
    assert (upper (sub_hyphen_space v) = spelled w ↔ alike v (spelled w))
      by (by rewrite <-upper_sub_alike, spelled_fixed).
    tauto.
  - rewrite Ev, Ew, upper_sub_alike. tauto.
Qed.

Lemma clash_free_spec (values : list string) :
  clash_free values ↔
  ∀ v w, v ∈ values → w ∈ values → v ≠ w → ¬ clash v w.
Proof.
  unfold clash_free. rewrite Forall_forall. split.
  - intros H v w Hv Hw Hne.
    destruct (proj1 (Forall_forall _ _) (H v Hv) w Hw); done.
  - intros H v Hv. apply Forall_forall. intros w Hw.
    destruct (decide (v = w)); [by left|right; by apply H].
Qed.

Lemma NoDup_fmap_inj_on {A B} (f : A → B) (l : list A) x y :
  NoDup (f <$> l) → x ∈ l → y ∈ l → f x = f y → x = y.
Proof.
  induction l as [|a l IH]; [by intros _ ?%elem_of_nil|].
  rewrite fmap_cons, NoDup_cons.
  intros [Ha Hnd] [->|Hx]%elem_of_cons [->|Hy]%elem_of_cons Heq; [done|..].
  - destruct Ha. rewrite Heq. by apply list_elem_of_fmap_2.
  - destruct Ha. rewrite <-Heq. by apply list_elem_of_fmap_2.
  - by apply IH.
Qed.

(** The member names of distinct values are distinct exactly when no two
    of the values clash. *)
Lemma enum_members_NoDup_iff (values : list string) :
  NoDup values → (NoDup (enum_members values) ↔ clash_free values).
Proof.
  intros Hnd. rewrite clash_free_spec. unfold enum_members. split.
  - intros Hm v w Hv Hw Hne Hc. apply Hne.
    apply (NoDup_fmap_inj_on make_name (sorted values)); [done|..].
    + by rewrite sorted_perm.
    + by rewrite sorted_perm.
    + by apply make_name_clash.
  - intros Hfree. apply NoDup_fmap_2_strong; [|by rewrite sorted_perm].
    intros v w Hv Hw Heq. rewrite sorted_perm in Hv, Hw.
    destruct (decide (v = w)) as [|Hne]; [done|].
    destruct (Hfree v w Hv Hw Hne). by apply make_name_clash.
Qed.
End clashes.

(** * The claims *)

(** C1 (amended): whenever [generate] on a new instance returns, every
    type reachable from the root has been processed exactly once: the
    instance is the result of processing, in order, a list of types
    without repetition that holds exactly the reachable types; each
    collection holds one entry per processed type of its kind, in
    processing order, and that entry describes this type.  The sequences
    collection has no duplicate entries; the other collections have none
    provided no two processed types of the same kind have the same
    synthesized name.  And [generate] does return, given enough nesting
    depth, on every schema in which no union or sequence is nested in
    itself through unions and sequences alone. *)
Theorem reachable_types_processed_once
    (h : gmap positive node) (rank : positive → nat) (r : Resolver) (root : positive) :
  resolver_interfaces r !! "Script" = Some root →
  (∀ n g', generate n h (new_generator r) = Returned g' →
     ∃ order,
       for_each (process n h) order (new_generator r) = Some g' ∧
       NoDup order ∧ (∀ t, t ∈ order ↔ reachable h root t) ∧
       visited_types g' = list_to_set order ∧
       collections_of h order g' ∧
       NoDup (frozen_arrays g') ∧
       (names_distinct h order →
          NoDup (interfaces g') ∧ NoDup (alts g') ∧
          NoDup (enums g') ∧ NoDup (primitives g'))) ∧
  (closed h → name_ranked rank h → is_Some (h !! root) →
   ∃ N, ∀ n, N ≤ n → ∃ g', generate n h (new_generator r) = Returned g').
Proof.
  intros Hscript. unfold generate.
  change (reset (new_generator r)) with (new_generator r). simpl.
  rewrite Hscript. split.
  - intros n g'.
    destruct (visit n h root (new_generator r)) as [g|] eqn:Hv; [|done].
    intros [= ->].
    destruct (fresh_run h root (new_generator r) n g' eq_refl Hv)
      as (order & Ho & N & _ & R & V & C & Hok).
    destruct (collections_NoDup h order g' N C Hok) as [? ?].
    by exists order.
  - intros Hcl Hrk Hroot.
    destruct (ranked_names_defined h rank Hcl Hrk) as [k Hnm].
    exists (size (dom h) + k + 1). intros n Hn.
    destruct (traversal_returns h k root (new_generator r) n Hcl Hnm Hroot Hn)
      as [g' ->].
    by exists g'.
Qed.

Lemma reachable_types_processed_once_witness :
  (∀ n g', generate n shared_heap (new_generator script_resolver) = Returned g' →
     ∃ order,
       for_each (process n shared_heap) order (new_generator script_resolver)
         = Some g' ∧
       NoDup order ∧ (∀ t, t ∈ order ↔ reachable shared_heap 1 t) ∧
       visited_types g' = list_to_set order ∧
       collections_of shared_heap order g' ∧
       NoDup (frozen_arrays g') ∧
       (names_distinct shared_heap order →
          NoDup (interfaces g') ∧ NoDup (alts g') ∧
          NoDup (enums g') ∧ NoDup (primitives g'))) ∧
  (∃ N, ∀ n, N ≤ n →
     ∃ g', generate n shared_heap (new_generator script_resolver) = Returned g').
Proof.
  destruct (reachable_types_processed_once shared_heap (λ _, 0) script_resolver 1
              eq_refl) as [Honce Hreturns].
  split; [exact Honce|]. apply Hreturns.
  - compute_done.
  - compute_done.
  - vm_compute. eauto.
Defined.

(** The schema with a shared interface: [B] has one entry, and both rows
    of [Script] carry its name. *)
Example shared_interface_entries :
  generate 3 shared_heap (new_generator script_resolver) = Returned shared_run ∧
  interfaces shared_run =
    [("Script", [("left", "B", "false", 0); ("right", "B", "true", 1)]);
     ("B", [])] ∧
  elements (visited_types shared_run) = [2%positive; 1%positive].
Proof. by vm_compute. Qed.

(** C1, as stated, fails.  Two separately declared unions of the same
    members are two types, each is processed once, and the unions
    collection ends with the same entry twice.  And a union that is one of
    its own members is reachable but never processed, since its name is
    never found and [generate] returns for no nesting depth. *)
Lemma twin_unions_duplicate_entry :
  (∃ g',
     generate 4 twin_unions_heap (new_generator script_resolver) = Returned g' ∧
     alts g' = [("NumberOrString", ["Number"; "String"]);
                ("NumberOrString", ["Number"; "String"])] ∧
     ¬ NoDup (alts g')) ∧
  (closed self_union_heap ∧ reachable self_union_heap 1 2 ∧
   ∀ n, generate n self_union_heap (new_generator script_resolver) = Unfinished).
Proof.
  split.
  - eexists. split; [vm_compute; reflexivity|]. split; [reflexivity|].
    simpl. intros Hnd. apply NoDup_cons in Hnd as [Hin _]. apply Hin. left.
  - split_and!; [compute_done| |].
    + apply rtc_once. unfold edge, children.
      change (self_union_heap !! 1%positive)
        with (Some (TyInterface "Script" [attr "chain" 2 false])).
      simpl. left.
    + assert (Hname : ∀ n, _cpp_name n self_union_heap 2 = None).
      { induction n as [|n IH]; [done|]. rewrite cpp_name_S.
        change (self_union_heap !! 2%positive)
          with (Some (Alt [3%positive; 2%positive])).
        cbv beta iota. cbn [mapM]. rewrite IH.
        by destruct (_cpp_name n self_union_heap 3). }
      intros n. unfold generate.
      change (reset (new_generator script_resolver))
        with (new_generator script_resolver).
      change (resolver_interfaces
                (resolver (new_generator script_resolver)) !! "Script")
        with (Some 1%positive).
      cbv beta iota. destruct n as [|n]; [done|]. rewrite visit_unfold.
      destruct (decide _) as [Hin|_]; [by apply elem_of_empty in Hin|].
      unfold process.
      change (self_union_heap !! 1%positive)
        with (Some (TyInterface "Script" [attr "chain" 2 false])).
      unfold visit_interface_type. simpl.
      destruct (_get_insert_model_id _ _) as [model_id g1].
      by rewrite Hname.
Qed.

(** C2 (amended): on every finite type graph in which no union or
    sequence is nested in itself through unions and sequences alone,
    cycles through interfaces included, [visit] on a new instance returns
    once it is given enough nesting depth; the instance it returns is the
    one obtained by processing the root first and then a list of types
    without repetition that does not hold the root again.  So the type
    that starts a cycle has exactly one entry in the collection of its
    kind: when it is an interface, its entry is the first of the
    interfaces collection and the other entries belong to other types. *)
Theorem visit_terminates_on_cycles
    (h : gmap positive node) (rank : positive → nat) (r : Resolver) (root : positive) :
  closed h → name_ranked rank h → is_Some (h !! root) →
  ∃ N, ∀ n, N ≤ n →
    ∃ g' order,
      visit n h root (new_generator r) = Some g' ∧
      for_each (process n h) (root :: order) (new_generator r) = Some g' ∧
      (root ∉ order) ∧ NoDup order ∧
      collections_of h (root :: order) g' ∧
      (∀ name attrs, h !! root = Some (TyInterface name attrs) →
         ∃ e rest,
           interfaces g' = e :: rest ∧ interface_entry h g' root e ∧
           Forall2 (interface_entry h g') (of_kind h KInterface order) rest).
Proof.
  intros Hcl Hrk Hroot.
  destruct (ranked_names_defined h rank Hcl Hrk) as [k Hnm].
  exists (size (dom h) + k + 1). intros n Hn.
  destruct (traversal_returns h k root (new_generator r) n Hcl Hnm Hroot Hn)
    as [g' Hg'].
  destruct (fresh_run h root (new_generator r) n g' eq_refl Hg')
    as (order & Ho & N & Hd & _ & _ & C & _).
  change (reset (new_generator r)) with (new_generator r) in Ho.
  destruct order as [|t order]; [done|]. injection Hd as ->.
  apply NoDup_cons in N as [? ?]. exists g', order. split_and!; try done.
  intros name attrs Hnd. pose proof (interfaces_of _ _ _ C) as HF.
  unfold of_kind in HF. rewrite filter_cons_True in HF.
  - apply Forall2_cons_inv_l in HF as (e & rest & ? & ? & ->). by exists e, rest.
  - unfold kind_of. by rewrite Hnd.
Qed.

Lemma visit_terminates_on_cycles_witness :
  ∃ N, ∀ n, N ≤ n →
    ∃ g' order,
      visit n cyclic_heap 1 (new_generator script_resolver) = Some g' ∧
      for_each (process n cyclic_heap) (1%positive :: order)
        (new_generator script_resolver) = Some g' ∧
      (1%positive ∉ order) ∧ NoDup order ∧
      collections_of cyclic_heap (1%positive :: order) g' ∧
      (∀ name attrs, cyclic_heap !! 1%positive = Some (TyInterface name attrs) →
         ∃ e rest,
           interfaces g' = e :: rest ∧ interface_entry cyclic_heap g' 1 e ∧
           Forall2 (interface_entry cyclic_heap g')
             (of_kind cyclic_heap KInterface order) rest).
Proof.
  apply (visit_terminates_on_cycles cyclic_heap cyclic_rank script_resolver 1).
  - compute_done.
  - compute_done.
  - vm_compute. eauto.
Defined.

(** The schema with a cycle through the interface [Script]. *)
Example cyclic_schema_entries :
  ∃ g',
    generate 4 cyclic_heap (new_generator script_resolver) = Returned g' ∧
    interfaces g' = [("Script", [("body", "ScriptOrString", "false", 0)])] ∧
    alts g' = [("ScriptOrString", ["Script"; "String"])] ∧
    primitives g' = ["String"].
Proof. eexists. split; [vm_compute; reflexivity|]. by split_and!. Qed.

(** C2, as stated, fails: when a union holds a sequence of itself, the
    name of the union is never found, so the visit of an interface with an
    attribute of this type returns for no nesting depth. *)
Lemma json_union_never_returns :
  closed json_heap ∧
  ∀ n, visit n json_heap 1 (new_generator script_resolver) = None.
Proof.
  split; [compute_done|].
  assert (Hname : ∀ n, _cpp_name n json_heap 2 = None ∧ _cpp_name n json_heap 4 = None).
  { induction n as [|n [IH2 IH4]]; [done|]. rewrite !cpp_name_S.
    change (json_heap !! 2%positive) with (Some (Alt [3%positive; 4%positive])).
    change (json_heap !! 4%positive) with (Some (TyFrozenArray 2)).
    cbv beta iota. split; [|by rewrite IH2].
    cbn [mapM]. rewrite IH4. by destruct (_cpp_name n json_heap 3). }
  intros [|n]; [done|]. rewrite visit_unfold.
  destruct (decide _) as [Hin|_]; [by apply elem_of_empty in Hin|].
  unfold process.
  change (json_heap !! 1%positive)
    with (Some (TyInterface "Script" [attr "value" 2 false])).
  unfold visit_interface_type. simpl.
  destruct (_get_insert_model_id _ _) as [model_id g1].
  by rewrite (proj1 (Hname n)).
Qed.

(** C3: within one run (the table and the counter as [generate] resets
    them), after any sequence [ks] of calls to [_get_insert_model_id]: a
    call with a key not seen so far returns the current value of the
    counter and advances it by one; a call with a key seen before returns
    the integer recorded for it and changes nothing; two calls received
    the same integer exactly when they had the same key; and the integers
    issued are exactly those below the counter, which counts the distinct
    keys seen, so they form the range from zero without gaps.  The table a
    returning call of [generate] leaves is such a one-to-one assignment of
    the integers below the counter. *)
Theorem model_ids_stable_and_dense (g0 : generator) (ks : list (positive * string)) :
  let ids := (allocate_all ks (reset g0)).1 in
  let g := (allocate_all ks (reset g0)).2 in
  (∀ k, k ∉ ks →
     (_get_insert_model_id k g).1 = next_model_id g ∧
     next_model_id (_get_insert_model_id k g).2 = next_model_id g + 1) ∧
  (∀ j k i, ks !! j = Some k → ids !! j = Some i →
     _get_insert_model_id k g = (i, g)) ∧
  (∀ j1 j2 k1 k2 i1 i2,
     ks !! j1 = Some k1 → ks !! j2 = Some k2 →
     ids !! j1 = Some i1 → ids !! j2 = Some i2 →
     (i1 = i2 ↔ k1 = k2)) ∧
  length ids = length ks ∧
  (∀ i, i ∈ ids ↔ i < next_model_id g) ∧
  next_model_id g = size (list_to_set ks : gset (positive * string)) ∧
  (∀ h n g', generate n h g0 = Returned g' → alloc_ok g').
Proof.
  intros ids g.
  destruct (allocate_all_spec ks (reset g0) (alloc_ok_reset g0))
    as (Hok & _ & Hdom & HF).
  fold ids g in Hok, Hdom, HF. simpl in Hdom.
  rewrite dom_empty_L, (left_id_L ∅ (∪)) in Hdom.
  assert (Hget : ∀ j k i, ks !! j = Some k → ids !! j = Some i →
            model_ids g !! k = Some i).
  { intros j k i Hk Hi. by apply (Forall2_lookup_lr _ _ _ _ _ _ HF Hk Hi). }
  split_and!.
  - intros k Hk. destruct (get_insert_novel k g) as (? & _ & ?); [|done].
    apply not_elem_of_dom. rewrite Hdom. by rewrite elem_of_list_to_set.
  - intros j k i Hk Hi. apply get_insert_seen. eauto.
  - intros j1 j2 k1 k2 i1 i2 Hk1 Hk2 Hi1 Hi2.
    pose proof (Hget _ _ _ Hk1 Hi1). pose proof (Hget _ _ _ Hk2 Hi2). split.
    + intros <-. by eapply (alloc_inj _ Hok).
    + intros <-. congruence.
  - symmetry. by eapply Forall2_length.
  - intros i. split.
    + intros [j Hj]%list_elem_of_lookup.
      destruct (Forall2_lookup_r _ _ _ _ _ HF Hj) as (k & Hk & Hlk).
      by eapply (alloc_bound _ Hok).
    + intros Hlt. destruct (alloc_dense _ Hok i Hlt) as [k Hk].
      assert (k ∈ ks) as [j Hj]%list_elem_of_lookup.
      { apply (elem_of_list_to_set (C:=gset (positive * string))).
        rewrite <-Hdom. by eapply elem_of_dom_2. }
      destruct (Forall2_lookup_l _ _ _ _ _ HF Hj) as (i' & Hi' & Hlk).
      apply list_elem_of_lookup. exists j. congruence.
  - unfold g. rewrite allocate_all_size; [|done].
    fold g. by rewrite <-size_dom, Hdom.
  - intros h n g'. apply generate_alloc_ok.
Qed.

(** C4 (amended): [_cpp_name] takes the type and the schema only, not the
    instance, and on a schema in which no union or sequence is nested in
    itself through unions and sequences alone it is total: a stored type
    has one name, found at every nesting depth above its rank and the only
    one found at any depth.  The name of a union is the names of its
    members joined by [Or], that of a sequence is [FrozenArray_] followed
    by the name of its element, that of the void sentinel is [None], and
    that of any other type is its declared name. *)
Theorem cpp_name_total_on_ranked
    (h : gmap positive node) (rank : positive → nat) (t : positive) :
  closed h → name_ranked rank h → is_Some (h !! t) →
  ∃ s,
    (∀ n, rank t < n → _cpp_name n h t = Some s) ∧
    (∀ n s', _cpp_name n h t = Some s' → s' = s) ∧
    match h !! t with
    | Some (Alt tys) =>
        ∃ names, Forall2 (is_name h) tys names ∧ s = String.concat "Or" names
    | Some (TyFrozenArray element_ty) =>
        ∃ elem, is_name h element_ty elem ∧ s = "FrozenArray_" +:+ elem
    | Some TyNone => s = "None"
    | Some (TyInterface name _) => s = name
    | Some (TyEnum name _) => s = name
    | Some (TyPrimitive name) => s = name
    | Some (TyOther name) => s = name
    | None => False
    end.
Proof.
  intros Hcl Hrk Ht.
  destruct (ranked_name_defined h rank (rank t) t Hcl Hrk (le_n _) Ht) as [s Hs].
  exists s. split_and!.
  - intros n Hn. eapply cpp_name_mono; [done|lia].
  - intros n s' Hs'. by eapply cpp_name_agree.
  - rewrite cpp_name_S in Hs. destruct (h !! t) as [[]|]; try congruence.
    + destruct (mapM _ _) as [names|] eqn:E; [|done]. injection Hs as <-.
      exists names. split; [|done]. apply mapM_Some in E.
      eapply Forall2_impl; [done|]. intros x y ?. by exists (rank t).
    + destruct (_cpp_name _ _ element_ty) as [elem|] eqn:E; [|done].
      injection Hs as <-. exists elem. split; [by exists (rank t)|done].
Qed.

Lemma cpp_name_total_on_ranked_witness :
  ∃ s,
    (∀ n, names_rank 1 < n → _cpp_name n names_heap 1 = Some s) ∧
    (∀ n s', _cpp_name n names_heap 1 = Some s' → s' = s) ∧
    match names_heap !! 1%positive with
    | Some (Alt tys) =>
        ∃ names, Forall2 (is_name names_heap) tys names ∧
          s = String.concat "Or" names
    | Some (TyFrozenArray element_ty) =>
        ∃ elem, is_name names_heap element_ty elem ∧ s = "FrozenArray_" +:+ elem
    | Some TyNone => s = "None"
    | Some (TyInterface name _) => s = name
    | Some (TyEnum name _) => s = name
    | Some (TyPrimitive name) => s = name
    | Some (TyOther name) => s = name
    | None => False
    end.
Proof.
  apply (cpp_name_total_on_ranked names_heap names_rank 1).
  - compute_done.
  - compute_done.
  - vm_compute. eauto.
Defined.

(** The names of the spec's examples. *)
Example cpp_name_examples :
  _cpp_name 2 names_heap 1 = Some "NumberOrString" ∧
  _cpp_name 2 names_heap 4 = Some "FrozenArray_Number" ∧
  _cpp_name 1 names_heap 5 = Some "None" ∧
  _cpp_name 1 names_heap 2 = Some "Number".
Proof. by vm_compute. Qed.

(** C4, as stated, fails: name synthesis is not total.  For a sequence
    whose element is a union that holds the sequence itself, no nesting
    depth yields a name. *)
Lemma nested_sequence_has_no_name :
  closed nested_heap ∧ ∀ n, _cpp_name n nested_heap 1 = None.
Proof.
  split; [compute_done|].
  assert (Hname : ∀ n,
    _cpp_name n nested_heap 1 = None ∧ _cpp_name n nested_heap 2 = None).
  { induction n as [|n [IH1 IH2]]; [done|]. rewrite !cpp_name_S.
    change (nested_heap !! 1%positive) with (Some (TyFrozenArray 2)).
    change (nested_heap !! 2%positive) with (Some (Alt [3%positive; 1%positive])).
    cbv beta iota. split; [by rewrite IH2|].
    cbn [mapM]. rewrite IH1. by destruct (_cpp_name n nested_heap 3). }
  intros n. apply Hname.
Qed.



(** The rule at work: a value with a character outside the table, and a
    value of table symbols. *)
Example member_name_rule_values :
  member_name_rule "instance of-x_y" = "INSTANCE_OF_X_Y" ∧
  member_name_rule ">>>=" = "GREATER_GREATER_GREATER_EQUAL" ∧
  member_name_rule "a+b" = "A+B".
Proof. by vm_compute. Qed.

(** The text [gen_enum] returns for the example. *)
Example gen_enum_text :
  gen_enum "Op" ["b"; "a-c"; "+"] =
    "enum class Op {" +:+ nl +:+ "  PLUS," +:+ nl +:+ "  A_C," +:+ nl
      +:+ "  B" +:+ nl +:+ "};".
Proof. by vm_compute. Qed.

(** C6: two independent runs over an unchanged schema, each on a new
    instance, agree.  Two runs that return, return the same instance,
    whatever nesting depth each was given; and when the second run finds
    the objects of the schema at other addresses, it builds the same five
    collections with the same names and the same identifiers in them, ends
    with the same counter, and records for every key the identifier the
    first run recorded for it.  The name of a type is the same in both
    runs. *)
Theorem runs_agree
    (h : gmap positive node) (r : Resolver) (f : positive → positive)
    (n : nat) (g1 : generator) :
  Inj (=) (=) f →
  generate n h (new_generator r) = Returned g1 →
  (∀ m g2, generate m h (new_generator r) = Returned g2 → g2 = g1) ∧
  (∀ m g2,
     generate m (rename_heap f h) (new_generator (rename_resolver f r)) = Returned g2 →
     interfaces g2 = interfaces g1 ∧ alts g2 = alts g1 ∧ enums g2 = enums g1 ∧
     primitives g2 = primitives g1 ∧ frozen_arrays g2 = frozen_arrays g1 ∧
     next_model_id g2 = next_model_id g1 ∧
     (∀ t s, model_ids g2 !! (f t, s) = model_ids g1 !! (t, s)) ∧
     (∀ t, f t ∈ visited_types g2 ↔ t ∈ visited_types g1)) ∧
  (∀ k t, _cpp_name k (rename_heap f h) (f t) = _cpp_name k h t).
Proof.
  intros Hinj. unfold generate at 1.
  change (reset (new_generator r)) with (new_generator r). simpl.
  destruct (resolver_interfaces r !! "Script") as [root|] eqn:Hroot; [|done].
  destruct (visit n h root (new_generator r)) as [g|] eqn:Hv; [|done].
  intros [= ->]. split_and!.
  - intros m g2. unfold generate.
    change (reset (new_generator r)) with (new_generator r). simpl.
    rewrite Hroot. destruct (visit m h root _) as [g|] eqn:Hv2; [|done].
    intros [= <-]. by eapply visit_agree.
  - intros m g2. unfold generate.
    change (reset (new_generator (rename_resolver f r)))
      with (new_generator (rename_resolver f r)).
    simpl. rewrite lookup_fmap, Hroot. simpl.
    rewrite rename_new_generator, (visit_rename f h m root (new_generator r)).
    destruct (visit m h root (new_generator r)) as [g|] eqn:Hv2; [|done].
    simpl. intros [= <-]. rewrite (visit_agree _ _ _ _ _ _ _ Hv2 Hv).
    split_and!; try done.
    + intros t s. simpl. change (f t, s) with (prod_map f id (t, s)).
      assert (Inj (=) (=) (prod_map f (@id string))) by apply _.
      apply (lookup_kmap (prod_map f id)).
    + intros t. by apply visited_rename.
  - intros k t. by apply cpp_name_rename.
Qed.

Lemma runs_agree_witness :
  (∀ m g2,
     generate m shared_heap (new_generator script_resolver) = Returned g2 →
     g2 = shared_run) ∧
  (∀ m g2,
     generate m (rename_heap Pos.succ shared_heap)
       (new_generator (rename_resolver Pos.succ script_resolver)) = Returned g2 →
     interfaces g2 = interfaces shared_run ∧ alts g2 = alts shared_run ∧
     enums g2 = enums shared_run ∧ primitives g2 = primitives shared_run ∧
     frozen_arrays g2 = frozen_arrays shared_run ∧
     next_model_id g2 = next_model_id shared_run ∧
     (∀ t s, model_ids g2 !! (Pos.succ t, s) = model_ids shared_run !! (t, s)) ∧
     (∀ t, Pos.succ t ∈ visited_types g2 ↔ t ∈ visited_types shared_run)) ∧
  (∀ k t, _cpp_name k (rename_heap Pos.succ shared_heap) (Pos.succ t)
          = _cpp_name k shared_heap t).
Proof.
  apply (runs_agree shared_heap script_resolver Pos.succ 3 shared_run).
  - exact Pos.succ_inj.
  - vm_compute. reflexivity.
Defined.

(** C7 (amended): a value of a class outside the recognized ones that
    reaches the dispatch of [visit] is recorded as visited and otherwise
    ignored, like the void sentinel: the call returns, no collection and
    no identifier changes, and nothing is raised. *)
Theorem unrecognized_variant_is_skipped
    (h : gmap positive node) (t : positive) (name : string) (g : generator) (n : nat) :
  h !! t = Some (TyOther name) → t ∉ visited_types g →
  visit (S n) h t g = Some (add_visited t g).
Proof.
  intros Ht Hin. simpl. rewrite Ht. by destruct (decide _).
Qed.

Lemma unrecognized_variant_is_skipped_witness :
  visit 1 foreign_heap 1 (new_generator script_resolver)
    = Some (add_visited 1 (new_generator script_resolver)).
Proof.
  apply (unrecognized_variant_is_skipped foreign_heap 1 "Ref").
  - reflexivity.
  - apply not_elem_of_empty.
Defined.

(** C7, as stated, fails: with a root of an unrecognized class the run
    does not fail; [generate] returns with every collection empty. *)
Lemma foreign_root_returns :
  ∃ g',
    generate 1 foreign_heap (new_generator script_resolver) = Returned g' ∧
    interfaces g' = [] ∧ alts g' = [] ∧ enums g' = [] ∧
    primitives g' = [] ∧ frozen_arrays g' = [].
Proof. eexists. split; [vm_compute; reflexivity|]. by split_and!. Qed.

(** C8 (amended): [gen_enum] lists one member per value, in ascending
    lexicographic order of the raw values.  For distinct values of
    characters below 128 the member names are pairwise distinct exactly
    when no two values clash: two values with a character outside the
    table that differ only in the case of letters or in which of space,
    hyphen and underscore stands at a place; or a value with a character
    outside the table that reads, up to such differences, as the
    underscore-joined table names of a value made of table symbols.  Two
    values made of table symbols never clash. *)
Theorem enum_members_distinct_unless_clash (values : list string) :
  (length (enum_members values) = length values ∧
   sorted values ≡ₚ values ∧
   StronglySorted lex_le (sorted values) ∧
   Forall2 (λ v m, m = make_name v) (sorted values) (enum_members values)) ∧
  (NoDup values → Forall ascii_only values →
   (NoDup (enum_members values) ↔
    ∀ v w, v ∈ values → w ∈ values → v ≠ w → ¬ clash v w)) ∧
  (∀ v w, symbols_only v → symbols_only w → ¬ clash v w).
Proof.
  split_and!.
  - unfold enum_members. by rewrite length_fmap, sorted_perm.
  - apply sorted_perm.
  - apply sorted_lex.
  - unfold enum_members. apply Forall2_fmap_r, Forall_Forall2_diag.
    by apply Forall_forall.
  - intros Hnd _. rewrite <-clash_free_spec. by apply enum_members_NoDup_iff.
  - unfold clash. tauto.
Qed.

Lemma enum_members_distinct_unless_clash_witness :
  NoDup (enum_members ["var"; "let"; "const"; "+"; "+="; "-"; "a_b"; "x y"]).
Proof.
  apply (proj1 (proj2 (enum_members_distinct_unless_clash
                         ["var"; "let"; "const"; "+"; "+="; "-"; "a_b"; "x y"]))).
  - compute_done.
  - compute_done.
  - apply clash_free_spec. compute_done.
Defined.

(** C8, as stated, fails: two distinct values that differ in a space and
    a hyphen render to the same member name. *)
Lemma space_and_hyphen_collide :
  NoDup ["a b"; "a-b"] ∧
  enum_members ["a b"; "a-b"] = ["A_B"; "A_B"] ∧
  ¬ NoDup (enum_members ["a b"; "a-b"]).
Proof.
  split_and!; [compute_done|by vm_compute|].
  change (enum_members ["a b"; "a-b"]) with ["A_B"; "A_B"].
  intros Hnd. apply NoDup_cons in Hnd as [Hin _]. apply Hin. left.
Qed.

(** The other clashes: letters that differ in case, and a word that
    spells the table name of a symbol. *)
Example case_and_symbol_clashes :
  clash "Var" "var" ∧ enum_members ["Var"; "var"] = ["VAR"; "VAR"] ∧
  clash "plus" "+" ∧ enum_members ["plus"; "+"] = ["PLUS"; "PLUS"] ∧
  clash "a b" "a-b" ∧ ¬ clash "var" "let".
Proof. split_and!; try (by vm_compute); compute_done. Qed.

(** C9: when the resolver has no interface named [Script], [generate]
    raises [KeyError] before [visit] is called; the instance is left as the
    assignments at the top of [generate] set it, with the five collections
    empty, no identifier recorded and the counter at zero. *)
Theorem missing_root_raises (h : gmap positive node) (g : generator) (n : nat) :
  resolver_interfaces (resolver g) !! "Script" = None →
  ∃ g',
    generate n h g = KeyError "Script" g' ∧
    interfaces g' = [] ∧ alts g' = [] ∧ enums g' = [] ∧
    primitives g' = [] ∧ frozen_arrays g' = [] ∧
    model_ids g' = ∅ ∧ next_model_id g' = 0 ∧
    visited_types g' = visited_types g.
Proof.
  intros Hr. exists (reset g). unfold generate. simpl. rewrite Hr. by split_and!.
Qed.

Lemma missing_root_raises_witness :
  ∃ g',
    generate 5 shared_heap (new_generator empty_resolver) = KeyError "Script" g' ∧
    interfaces g' = [] ∧ alts g' = [] ∧ enums g' = [] ∧
    primitives g' = [] ∧ frozen_arrays g' = [] ∧
    model_ids g' = ∅ ∧ next_model_id g' = 0 ∧
    visited_types g' = visited_types (new_generator empty_resolver).
Proof.
  apply (missing_root_raises shared_heap (new_generator empty_resolver) 5).
  reflexivity.
Defined.

(** C10: [generate] empties the five collections and the identifier table
    and sets the counter to zero, and keeps the visited set.  So when a
    call of [generate] has returned, a second call on the same instance
    over the same schema finds the root visited and returns at once: the
    five collections are empty, no identifier is issued, and the visited
    set is the one the first call left. *)
Theorem second_generate_is_empty
    (h : gmap positive node) (g g1 : generator) (n m : nat) :
  generate n h g = Returned g1 →
  visited_types g ⊆ visited_types g1 ∧
  ∃ g2,
    generate (S m) h g1 = Returned g2 ∧
    interfaces g2 = [] ∧ alts g2 = [] ∧ enums g2 = [] ∧
    primitives g2 = [] ∧ frozen_arrays g2 = [] ∧
    model_ids g2 = ∅ ∧ next_model_id g2 = 0 ∧
    visited_types g2 = visited_types g1.
Proof.
  unfold generate.
  destruct (resolver_interfaces (resolver (reset g)) !! "Script") as [root|] eqn:Hr;
    [|done].
  destruct (visit n h root (reset g)) as [g'|] eqn:Hv; [|done].
  intros [= ->]. apply visit_marks_root in Hv as (Hin & Hsub & Hres).
  split; [done|]. exists (reset g1).
  change (resolver (reset g1)) with (resolver g1). rewrite Hres, Hr.
  rewrite visit_unfold.
  destruct (decide (root ∈ visited_types (reset g1))) as [_|Hn]; [by split_and!|].
  by destruct Hn.
Qed.

Lemma second_generate_is_empty_witness :
  visited_types (new_generator script_resolver) ⊆ visited_types shared_run ∧
  ∃ g2,
    generate 1 shared_heap shared_run = Returned g2 ∧
    interfaces g2 = [] ∧ alts g2 = [] ∧ enums g2 = [] ∧
    primitives g2 = [] ∧ frozen_arrays g2 = [] ∧
    model_ids g2 = ∅ ∧ next_model_id g2 = 0 ∧
    visited_types g2 = visited_types shared_run.
Proof.
  apply (second_generate_is_empty shared_heap (new_generator script_resolver)
           shared_run 3 0).
  vm_compute. reflexivity.
Defined.


(** * Further properties *)

(** ** Growth of the instance *)

Section growth.
Context (h : gmap positive node).
Implicit Types (g : generator) (t : positive).

Lemma get_insert_next k g :
  next_model_id g ≤ next_model_id (_get_insert_model_id k g).2.
Proof.
  unfold _get_insert_model_id. destruct (model_ids g !! k); simpl; lia.
Qed.

Lemma interface_fields_keys n t attrs fields g fields' g' :
  interface_fields n h t attrs fields g = Some (fields', g') →
  next_model_id g ≤ next_model_id g' ∧
  (next_model_id g = size (model_ids g) → next_model_id g' = size (model_ids g')) ∧
  dom (model_ids g') =
    dom (model_ids g) ∪ list_to_set ((λ a, (t, attr_name a)) <$> attrs).
Proof.
  revert fields g. induction attrs as [|a attrs IH]; intros fields g; simpl.
  - intros [= <- <-]. split_and!; [done..|set_solver].
  - pose proof (get_insert_next (t, attr_name a) g) as Hn.
    pose proof (get_insert_size (t, attr_name a) g) as Hs.
    pose proof (get_insert_dom (t, attr_name a) g) as Hd.
    destruct (_get_insert_model_id _ g) as [model_id g1]. simpl in Hn, Hs, Hd.
    destruct (_cpp_name n h (resolved_ty a)); [|done]. simpl.
    intros (Hn' & Hs' & Hd')%IH. split_and!; [lia|by auto|].
    rewrite Hd', Hd. set_solver.
Qed.

Lemma process_keys n t g g' :
  process n h t g = Some g' →
  next_model_id g ≤ next_model_id g' ∧
  (next_model_id g = size (model_ids g) → next_model_id g' = size (model_ids g')) ∧
  dom (model_ids g') = dom (model_ids g) ∪ keys_of h t.
Proof.
  unfold process, keys_of. destruct (h !! t) as [[]|]; try done.
  - unfold visit_interface_type.
    destruct (interface_fields _ _ _ _ _ _) as [[fields g1]|] eqn:E; [|done].
    apply interface_fields_keys in E. simpl in *.
    destruct (_cpp_name n h t); [|done]. by intros [= <-].
  - unfold visit_alt_type. destruct (_cpp_name n h t); [|done]. simpl.
    destruct (mapM _ _); [|done]. intros [= <-]. simpl.
    split_and!; [done..|set_solver].
  - unfold visit_enum_type. destruct (_cpp_name n h t); [|done].
    intros [= <-]. simpl. split_and!; [done..|set_solver].
  - unfold visit_primitive_type. destruct (_cpp_name n h t); [|done].
    intros [= <-]. simpl. split_and!; [done..|set_solver].
  - unfold visit_frozen_array_type.
    pose proof (get_insert_next (t, "list-length") (add_visited t g)) as Hn.
    pose proof (get_insert_size (t, "list-length") (add_visited t g)) as Hs.
    pose proof (get_insert_dom (t, "list-length") (add_visited t g)) as Hd.
    destruct (_get_insert_model_id _ _) as [model_id g1]. simpl in Hn, Hs, Hd.
    destruct (_cpp_name n h t); [|done]. simpl.
    destruct (_cpp_name n h element_ty); [|done]. by intros [= <-].
  - intros [= <-]. simpl. split_and!; [done..|set_solver].
  - intros [= <-]. simpl. split_and!; [done..|set_solver].
Qed.

Lemma for_each_process_keys n order g g' :
  for_each (process n h) order g = Some g' →
  next_model_id g ≤ next_model_id g' ∧
  (next_model_id g = size (model_ids g) → next_model_id g' = size (model_ids g')) ∧
  ∀ k, k ∈ dom (model_ids g') ↔
       k ∈ dom (model_ids g) ∨ ∃ t, t ∈ order ∧ k ∈ keys_of h t.
Proof.
  revert g. induction order as [|t order IH]; intros g; simpl.
  - intros [= <-]. split_and!; [done..|]. intros k. split; [by left|].
    intros [?|(t & ?%elem_of_nil & _)]; done.
  - destruct (process n h t g) as [g1|] eqn:E; [|done]. simpl.
    apply process_keys in E as (Hn & Hs & Hd).
    intros (Hn' & Hs' & Hd')%IH. split_and!; [lia|by auto|].
    intros k. rewrite Hd', Hd, elem_of_union. split.
    + intros [[?|?]|(t' & ? & ?)]; [by left|right..].
      * exists t. split; [left|done].
      * exists t'. split; [by right|done].
    + intros [?|(t' & [->|?]%elem_of_cons & ?)]; [by left; left|by left; right|].
      right. by exists t'.
Qed.

Lemma for_each_process_prefix n order g g' :
  for_each (process n h) order g = Some g' →
  interfaces g `prefix_of` interfaces g' ∧ alts g `prefix_of` alts g' ∧
  enums g `prefix_of` enums g' ∧ primitives g `prefix_of` primitives g' ∧
  frozen_arrays g `prefix_of` frozen_arrays g'.
Proof.
  revert g. induction order as [|t order IH]; intros g; simpl.
  - by intros [= <-].
  - destruct (process n h t g) as [g1|] eqn:E; [|done]. simpl.
    apply process_delta in E
      as (di & da & de & dp & df & Hi & Ha & He & Hp & Hf & _).
    intros (Pi & Pa & Pe & Pp & Pf)%IH.
    rewrite Hi in Pi. rewrite Ha in Pa. rewrite He in Pe.
    rewrite Hp in Pp. rewrite Hf in Pf.
    split_and!; (etrans; [apply prefix_app_r; reflexivity|done]).
Qed.
End growth.

(** ** The traversal on an instance in any state *)

(** X1: a call of [visit] that returns only adds to the instance: the
    resolver is the same, no visited type is forgotten, each collection
    keeps its entries at their positions and may have new ones after
    them, every recorded identifier stays recorded for its key, and the
    counter does not decrease. *)
Theorem visit_only_appends
    (h : gmap positive node) (n : nat) (t : positive) (g g' : generator) :
  visit n h t g = Some g' →
  resolver g' = resolver g ∧
  visited_types g ⊆ visited_types g' ∧
  interfaces g `prefix_of` interfaces g' ∧ alts g `prefix_of` alts g' ∧
  enums g `prefix_of` enums g' ∧ primitives g `prefix_of` primitives g' ∧
  frozen_arrays g `prefix_of` frozen_arrays g' ∧
  model_ids g ⊆ model_ids g' ∧
  next_model_id g ≤ next_model_id g'.
Proof.
  intros Hv. destruct (visit_traced h _ _ _ _ Hv) as (order & Ho & _).
  destruct (for_each_process_frame h _ _ _ _ Ho) as (Hr & Hvis & Hm).
  destruct (for_each_process_prefix h _ _ _ _ Ho) as (? & ? & ? & ? & ?).
  destruct (for_each_process_keys h _ _ _ _ Ho) as (? & _ & _).
  split_and!; try done. rewrite Hvis. set_solver.
Qed.

Lemma visit_only_appends_witness :
  resolver shared_run = resolver (new_generator script_resolver) ∧
  visited_types (new_generator script_resolver) ⊆ visited_types shared_run ∧
  interfaces (new_generator script_resolver) `prefix_of` interfaces shared_run ∧
  alts (new_generator script_resolver) `prefix_of` alts shared_run ∧
  enums (new_generator script_resolver) `prefix_of` enums shared_run ∧
  primitives (new_generator script_resolver) `prefix_of` primitives shared_run ∧
  frozen_arrays (new_generator script_resolver)
    `prefix_of` frozen_arrays shared_run ∧
  model_ids (new_generator script_resolver) ⊆ model_ids shared_run ∧
  next_model_id (new_generator script_resolver) ≤ next_model_id shared_run.
Proof.
  apply (visit_only_appends shared_heap 3 1).
  vm_compute. reflexivity.
Defined.

(** X2: visiting is idempotent.  Once a call of [visit] on a type has
    returned, a further call on this type, on the instance the first call
    left, returns at once and changes nothing. *)
Theorem visit_twice
    (h : gmap positive node) (n m : nat) (t : positive) (g g' : generator) :
  visit n h t g = Some g' → visit (S m) h t g' = Some g'.
Proof.
  intros (Hin & _ & _)%visit_marks_root. rewrite visit_unfold.
  by rewrite decide_True.
Qed.

Lemma visit_twice_witness :
  visit 1 shared_heap 1 shared_run = Some shared_run.
Proof.
  apply (visit_twice shared_heap 3 0 1 (new_generator script_resolver)).
  vm_compute. reflexivity.
Defined.

(** X3: a call of [visit] on an instance in any state, when it returns,
    has processed a list of types without repetition, none of which was
    visited before and all of which can be reached from the type visited;
    the visited set has grown by exactly these types, every type a
    processed type refers to is visited, and the collections have grown by
    one entry per processed type of each kind, in processing order. *)
Theorem visit_processes_unvisited_reachable
    (h : gmap positive node) (n : nat) (t : positive) (g g' : generator) :
  visit n h t g = Some g' →
  ∃ order,
    for_each (process n h) order g = Some g' ∧
    NoDup order ∧
    (∀ x, x ∈ order → (x ∉ visited_types g) ∧ reachable h t x) ∧
    visited_types g' = visited_types g ∪ list_to_set order ∧
    (∀ x y, x ∈ order → edge h x y → y ∈ visited_types g') ∧
    (∀ earlier, collections_of h earlier g → alloc_ok g →
       collections_of h (earlier ++ order) g').
Proof.
  intros Hv. destruct (visit_traced h _ _ _ _ Hv) as (order & Ho & [N W R C E]).
  destruct (for_each_process_frame h _ _ _ _ Ho) as (_ & Hvis & _).
  exists order. split_and!; try done.
  - intros x Hx. split; [by apply W|].
    by destruct (R x Hx) as (c & ->%list_elem_of_singleton & ?).
  - intros x y Hx Hxy. rewrite Hvis.
    destruct (E x y Hx Hxy); set_solver.
  - intros earlier Hc Hok.
    by destruct (for_each_process_collections h n earlier order g g' Hc Hok Ho).
Qed.

Lemma visit_processes_unvisited_reachable_witness :
  ∃ order,
    for_each (process 3 shared_heap) order (new_generator script_resolver)
      = Some shared_run ∧
    NoDup order ∧
    (∀ x, x ∈ order →
       (x ∉ visited_types (new_generator script_resolver)) ∧
       reachable shared_heap 1 x) ∧
    visited_types shared_run
      = visited_types (new_generator script_resolver) ∪ list_to_set order ∧
    (∀ x y, x ∈ order → edge shared_heap x y → y ∈ visited_types shared_run) ∧
    (∀ earlier,
       collections_of shared_heap earlier (new_generator script_resolver) →
       alloc_ok (new_generator script_resolver) →
       collections_of shared_heap (earlier ++ order) shared_run).
Proof.
  apply (visit_processes_unvisited_reachable shared_heap 3 1).
  vm_compute. reflexivity.
Defined.

(** X4: after a run of [generate] on a new instance that returns, the
    keys of the identifier table are exactly the pairs of a reachable
    interface and the name of one of its attributes, and the pairs of a
    reachable sequence and [list-length]; the counter is the number of
    these keys. *)
Theorem model_id_keys
    (h : gmap positive node) (r : Resolver) (root : positive) (n : nat)
    (g' : generator) :
  resolver_interfaces r !! "Script" = Some root →
  generate n h (new_generator r) = Returned g' →
  (∀ k, k ∈ dom (model_ids g') ↔ ∃ t, reachable h root t ∧ k ∈ keys_of h t) ∧
  next_model_id g' = size (dom (model_ids g')).
Proof.
  intros Hroot. unfold generate.
  change (reset (new_generator r)) with (new_generator r). simpl.
  rewrite Hroot.
  destruct (visit n h root (new_generator r)) as [g|] eqn:Hv; [|done].
  intros [= ->].
  destruct (visit_fresh_order h n root (new_generator r) g' eq_refl Hv)
    as (order & Ho & _ & _ & R & _).
  destruct (for_each_process_keys h _ _ _ _ Ho) as (_ & Hs & Hd). split.
  - intros k. rewrite Hd. simpl. rewrite dom_empty_L. split.
    + intros [?%elem_of_empty|(t & Ht & ?)]; [done|].
      exists t. by rewrite <-R.
    + intros (t & Ht & ?). right. exists t. by rewrite R.
  - rewrite size_dom. by apply Hs.
Qed.

Lemma model_id_keys_witness :
  (∀ k, k ∈ dom (model_ids shared_run) ↔
        ∃ t, reachable shared_heap 1 t ∧ k ∈ keys_of shared_heap t) ∧
  next_model_id shared_run = size (dom (model_ids shared_run)).
Proof.
  apply (model_id_keys shared_heap script_resolver 1 3).
  - reflexivity.
  - vm_compute. reflexivity.
Defined.

(** ** Identifiers of the fields of an interface *)

(** X5: the loop of [visit_interface_type] builds one row per attribute,
    in order, each with the attribute's name, the name of its type and
    its laziness literal; two rows carry the same identifier exactly when
    their attributes have the same name, so attributes of one interface
    that share a name share an identifier. *)
Theorem field_ids_follow_names
    (h : gmap positive node) (n : nat) (t : positive)
    (attrs : list TyInterfaceAttribute) (g g' : generator) (rows : list field_row) :
  alloc_ok g →
  interface_fields n h t attrs [] g = Some (rows, g') →
  length rows = length attrs ∧
  (∀ i a row, attrs !! i = Some a → rows !! i = Some row →
     ∃ nm, _cpp_name n h (resolved_ty a) = Some nm ∧
           row = (attr_name a, nm, bool_literal (lazy a), row.2)) ∧
  (∀ i j a b ra rb,
     attrs !! i = Some a → attrs !! j = Some b →
     rows !! i = Some ra → rows !! j = Some rb →
     (ra.2 = rb.2 ↔ attr_name a = attr_name b)).
Proof.
  intros Hok Hf.
  assert (Hnames : ∀ fields fields' g g',
    interface_fields n h t attrs fields g = Some (fields', g') →
    ∃ rows, fields' = fields ++ rows ∧
      Forall2 (λ a row, ∃ nm, _cpp_name n h (resolved_ty a) = Some nm ∧
                 row = (attr_name a, nm, bool_literal (lazy a), row.2)) attrs rows).
  { clear. induction attrs as [|a attrs IH]; intros fields fields' g g'; simpl.
    - intros [= <- <-]. exists []. by rewrite app_nil_r.
    - destruct (_get_insert_model_id _ g) as [model_id g1].
      destruct (_cpp_name n h (resolved_ty a)) as [s|] eqn:Hs; [|done]. simpl.
      intros (rows & -> & HF)%IH.
      exists ((attr_name a, s, bool_literal (lazy a), model_id) :: rows).
      split; [by rewrite <-app_assoc|]. constructor; [|done]. by exists s. }
  destruct (Hnames _ _ _ _ Hf) as (rows' & Hrows & HN). simpl in Hrows. subst rows'.
  destruct (interface_fields_rows h _ _ _ _ _ _ _ Hf)
    as (rows' & Hrows & HF & _ & _ & _ & _ & _ & Hok').
  simpl in Hrows. subst rows'. specialize (Hok' Hok). split_and!.
  - symmetry. by eapply Forall2_length.
  - intros i a row Ha Hrow. exact (Forall2_lookup_lr _ _ _ _ _ _ HN Ha Hrow).
  - intros i j a b ra rb Ha Hb Hra Hrb.
    destruct (Forall2_lookup_lr _ _ _ _ _ _ HF Ha Hra) as (na & ia & _ & Hia & ->).
    destruct (Forall2_lookup_lr _ _ _ _ _ _ HF Hb Hrb) as (nb & ib & _ & Hib & ->).
    simpl. split.
    + intros <-. pose proof (alloc_inj _ Hok' _ _ _ Hia Hib). congruence.
    + intros Heq. rewrite Heq in Hia. congruence.
Qed.

Lemma field_ids_follow_names_witness :
  length twin_rows = length twin_attrs ∧
  (∀ i a row, twin_attrs !! i = Some a → twin_rows !! i = Some row →
     ∃ nm, _cpp_name 1 shared_heap (resolved_ty a) = Some nm ∧
           row = (attr_name a, nm, bool_literal (lazy a), row.2)) ∧
  (∀ i j a b ra rb,
     twin_attrs !! i = Some a → twin_attrs !! j = Some b →
     twin_rows !! i = Some ra → twin_rows !! j = Some rb →
     (ra.2 = rb.2 ↔ attr_name a = attr_name b)).
Proof.
  apply (field_ids_follow_names shared_heap 1 1 twin_attrs
           (new_generator script_resolver) twin_rows_generator twin_rows).
  - apply (alloc_ok_reset (new_generator script_resolver)).
  - vm_compute. reflexivity.
Defined.

(** New keys with distinct names are numbered one after the other,
    whatever rows were built before. *)
Lemma interface_fields_numbering
    (h : gmap positive node) (n : nat) (t : positive)
    (attrs : list TyInterfaceAttribute) (fields fields' : list field_row)
    (g g' : generator) :
  NoDup (attr_name <$> attrs) →
  (∀ a, a ∈ attrs → model_ids g !! (t, attr_name a) = None) →
  interface_fields n h t attrs fields g = Some (fields', g') →
  ∃ rows, fields' = fields ++ rows ∧
    (λ row : field_row, row.2) <$> rows = seq (next_model_id g) (length attrs) ∧
    next_model_id g' = next_model_id g + length attrs.
Proof.
  revert fields fields' g g'.
  induction attrs as [|a attrs IH]; intros fields fields' g g' Hnd Hnew; simpl.
  - intros [= <- <-]. exists []. rewrite app_nil_r. split_and!; [done..|lia].
  - apply NoDup_cons in Hnd as [Ha Hnd].
    destruct (get_insert_novel (t, attr_name a) g) as (Hid & Hm & Hn);
      [apply Hnew; left|].
    destruct (_get_insert_model_id _ g) as [model_id g1]. simpl in Hid, Hm, Hn.
    destruct (_cpp_name n h (resolved_ty a)) as [s|]; [|done]. simpl.
    intros Hrec.
    assert (Hnew1 : ∀ b, b ∈ attrs → model_ids g1 !! (t, attr_name b) = None).
    { intros b Hb. rewrite Hm, lookup_insert_ne; [apply Hnew; by right|].
      intros [= Heq]. apply Ha. rewrite Heq.
      by apply (list_elem_of_fmap_2 attr_name). }
    destruct (IH _ _ _ _ Hnd Hnew1 Hrec) as (rows & -> & Hids & Hnext).
    exists ((attr_name a, s, bool_literal (lazy a), model_id) :: rows).
    split_and!.
    + by rewrite <-app_assoc.
    + rewrite fmap_cons, Hids, Hn. simpl. rewrite Hid. f_equal. f_equal. lia.
    + lia.
Qed.

(** X6: when the attributes of an interface have distinct names and none
    of its keys is recorded yet, as at the first visit of the interface,
    the rows receive consecutive identifiers in declaration order,
    starting at the counter, and the counter advances by the number of
    attributes. *)
Theorem new_fields_numbered_in_order
    (h : gmap positive node) (n : nat) (t : positive)
    (attrs : list TyInterfaceAttribute) (g g' : generator) (rows : list field_row) :
  NoDup (attr_name <$> attrs) →
  (∀ a, a ∈ attrs → model_ids g !! (t, attr_name a) = None) →
  interface_fields n h t attrs [] g = Some (rows, g') →
  (λ row : field_row, row.2) <$> rows = seq (next_model_id g) (length attrs) ∧
  next_model_id g' = next_model_id g + length attrs.
Proof.
  intros Hnd Hnew Hf.
  destruct (interface_fields_numbering h n t attrs [] rows g g' Hnd Hnew Hf)
    as (rows' & Hrows & Hids & Hnext).
  simpl in Hrows. subst rows'. by split.
Qed.

Lemma new_fields_numbered_in_order_witness :
  (λ row : field_row, row.2) <$> script_rows
    = seq (next_model_id (new_generator script_resolver)) (length script_attrs) ∧
  next_model_id script_rows_generator
    = next_model_id (new_generator script_resolver) + length script_attrs.
Proof.
  apply (new_fields_numbered_in_order shared_heap 1 1 script_attrs
           (new_generator script_resolver) script_rows_generator script_rows).
  - compute_done.
  - intros a _. apply lookup_empty.
  - vm_compute. reflexivity.
Defined.

(** ** The emitted tables *)

(** Counts the occurrences in the literal parts of a text. *)
Ltac count_text :=
  unfold continuation, backslash, nl;
  rewrite ?count_char_app;
  repeat match goal with
  | |- context [count_char ?c (String ?a ?s)] =>
      let n := eval vm_compute in (count_char c (String a s)) in
      change (count_char c (String a s)) with n
  end.

Section emitters.
Implicit Types (g : generator) (c : ascii).

Lemma pretty_N_go_free c x s :
  (∀ d, pretty_N_char d ≠ c) → char_free c s → char_free c (pretty_N_go x s).
Proof.
  intros Hd. revert s. induction (N.lt_wf_0 x) as [x _ IH]; intros s Hs.
  destruct (decide (x = 0)%N) as [->|]; [by rewrite pretty_N_go_0|].
  rewrite pretty_N_go_step by lia. apply IH; [apply N.div_lt; lia|].
  apply char_free_cons. split; [apply Hd|done].
Qed.

(** A decimal numeral holds digits only. *)
Lemma pretty_nat_free c (n : nat) :
  (∀ d, pretty_N_char d ≠ c) → char_free c (pretty n).
Proof.
  intros Hd. unfold pretty, pretty_nat, pretty, pretty_N.
  destruct (decide _).
  - apply char_free_cons. split; [apply (Hd 0%N)|by intros ?%elem_of_nil].
  - apply pretty_N_go_free; [done|by intros ?%elem_of_nil].
Qed.

Lemma digits_not_open d : pretty_N_char d ≠ "("%char.
Proof. unfold pretty_N_char. by repeat case_match. Qed.

Lemma digits_not_close d : pretty_N_char d ≠ ")"%char.
Proof. unfold pretty_N_char. by repeat case_match. Qed.

Lemma count_concat_rows c1 c2 sep (l : list string) k :
  count_char c1 sep = 0 → count_char c2 sep = 0 →
  Forall (λ s, count_char c1 s = count_char c2 s + k) l →
  count_char c1 (String.concat sep l)
    = count_char c2 (String.concat sep l) + k * length l.
Proof.
  intros H1 H2. induction 1 as [|x l Hx Hl IH]; [unfold count_char; simpl; lia|].
  destruct l as [|y l].
  - simpl. lia.
  - rewrite concat_cons_cons, !count_char_app, H1, H2, IH, Hx. simpl. lia.
Qed.

Lemma paren_free_count s :
  paren_free s → count_char "(" s = 0 ∧ count_char ")" s = 0.
Proof. intros [? ?]. split; by apply count_char_free. Qed.

Lemma continuation_counts :
  count_char "(" continuation = 0 ∧ count_char ")" continuation = 0.
Proof. done. Qed.

Lemma field_row_balanced (row : field_row) :
  paren_free row.1.1.1 ∧ paren_free row.1.1.2 ∧ paren_free row.1.2 →
  count_char "("
    (let '(name, ty_name, lazy, model_id) := row in
     "T(" +:+ name +:+ ", " +:+ ty_name +:+ ", " +:+ lazy +:+ ", "
       +:+ pretty model_id +:+ ")")
  = count_char ")"
    (let '(name, ty_name, lazy, model_id) := row in
     "T(" +:+ name +:+ ", " +:+ ty_name +:+ ", " +:+ lazy +:+ ", "
       +:+ pretty model_id +:+ ")") + 0.
Proof.
  destruct row as [[[name ty_name] lazy] model_id]. simpl.
  intros ([? ?]%paren_free_count & [? ?]%paren_free_count & [? ?]%paren_free_count).
  pose proof (count_char_free _ _ (pretty_nat_free "(" model_id digits_not_open)).
  pose proof (count_char_free _ _ (pretty_nat_free ")" model_id digits_not_close)).
  count_text. lia.
Qed.

Lemma gen_fields_balanced fields :
  Forall (λ row : field_row,
            paren_free row.1.1.1 ∧ paren_free row.1.1.2 ∧ paren_free row.1.2)
    fields →
  count_char "(" (gen_fields fields) = count_char ")" (gen_fields fields).
Proof.
  intros HF. unfold gen_fields.
  rewrite (count_concat_rows "(" ")" ", " _ 0); [lia|done|done|].
  apply Forall_fmap. eapply Forall_impl; [done|].
  intros row. apply field_row_balanced.
Qed.
End emitters.

(** X7: in every table but the unions table the parentheses are
    balanced; each row of the unions table opens [V(] and [T(] and
    closes one parenthesis only, so the unions table, and with it the
    text of [gen_all], has as many more opening than closing parentheses
    as the unions collection has entries.  This holds when no name in the
    collections has a parenthesis. *)
Theorem tables_parentheses (g : generator) :
  plain_collections g →
  count_char "(" (gen_interfaces g) = count_char ")" (gen_interfaces g) ∧
  count_char "(" (gen_alts g) = count_char ")" (gen_alts g) + length (alts g) ∧
  count_char "(" (gen_enums g) = count_char ")" (gen_enums g) ∧
  count_char "(" (gen_primitives g) = count_char ")" (gen_primitives g) ∧
  count_char "(" (gen_frozen_arrays g) = count_char ")" (gen_frozen_arrays g) ∧
  count_char "(" (gen_all g) = count_char ")" (gen_all g) + length (alts g).
Proof.
  intros (Hi & Ha & He & Hp & Hf).
  destruct continuation_counts as [Hc1 Hc2].
  cut ((count_char "(" (gen_interfaces g) = count_char ")" (gen_interfaces g)) ∧
       (count_char "(" (gen_alts g)
          = count_char ")" (gen_alts g) + length (alts g)) ∧
       (count_char "(" (gen_enums g) = count_char ")" (gen_enums g)) ∧
       (count_char "(" (gen_primitives g) = count_char ")" (gen_primitives g)) ∧
       (count_char "(" (gen_frozen_arrays g)
          = count_char ")" (gen_frozen_arrays g))).
  { intros (H1 & H2 & H3 & H4 & H5). split_and!; try done.
    unfold gen_all. rewrite !concat_cons_cons.
    change (String.concat nl [gen_frozen_arrays g]) with (gen_frozen_arrays g).
    rewrite !count_char_app, H1, H2, H3, H4, H5.
    change (count_char "(" nl) with 0. change (count_char ")" nl) with 0. lia. }
  split_and!.
  - unfold gen_interfaces.
    assert (Hrows := count_concat_rows "(" ")" continuation
      ((λ '(name, fields), "  V(" +:+ name +:+ ", " +:+ gen_fields fields +:+ ")")
         <$> interfaces g) 0 Hc1 Hc2).
    rewrite !count_char_app, Hrows; [count_text; lia|].
    apply Forall_fmap. eapply Forall_impl; [exact Hi|].
    intros [name fields] [[? ?]%paren_free_count Hfields]. simpl in *.
    pose proof (gen_fields_balanced fields Hfields). count_text. lia.
  - unfold gen_alts.
    assert (Hrows := count_concat_rows "(" ")" continuation
      ((λ '(name, subtys),
          "  V(" +:+ name +:+ ", T(" +:+ String.concat ", " subtys +:+ ")")
         <$> alts g) 1 Hc1 Hc2).
    rewrite !count_char_app, Hrows; [rewrite length_fmap; count_text; lia|].
    apply Forall_fmap. eapply Forall_impl; [exact Ha|].
    intros [name subtys] [[? ?]%paren_free_count Hsub]. simpl in *.
    assert (count_char "(" (String.concat ", " subtys)
              = count_char ")" (String.concat ", " subtys) + 0 * length subtys) as Hj.
    { apply count_concat_rows; [done..|]. eapply Forall_impl; [done|].
      intros s [? ?]%paren_free_count. lia. }
    count_text. lia.
  - unfold gen_enums.
    assert (Hrows := count_concat_rows "(" ")" continuation
      ((λ name, "  V(" +:+ name +:+ ")") <$> enums g) 0 Hc1 Hc2).
    rewrite !count_char_app, Hrows; [count_text; lia|].
    apply Forall_fmap. eapply Forall_impl; [exact He|].
    intros name [? ?]%paren_free_count. simpl. count_text. lia.
  - unfold gen_primitives.
    assert (Hrows := count_concat_rows "(" ")" continuation
      ((λ name, "  V(" +:+ name +:+ ")") <$> primitives g) 0 Hc1 Hc2).
    rewrite !count_char_app, Hrows; [count_text; lia|].
    apply Forall_fmap. eapply Forall_impl; [exact Hp|].
    intros name [? ?]%paren_free_count. simpl. count_text. lia.
  - unfold gen_frozen_arrays.
    assert (Hrows := count_concat_rows "(" ")" continuation
      ((λ '(name, elem_name, model_id),
          "  V(" +:+ name +:+ ", " +:+ elem_name +:+ ", " +:+ pretty model_id +:+ ")")
         <$> frozen_arrays g) 0 Hc1 Hc2).
    rewrite !count_char_app, Hrows; [count_text; lia|].
    apply Forall_fmap. eapply Forall_impl; [exact Hf|].
    intros [[name elem_name] model_id]
      [[? ?]%paren_free_count [? ?]%paren_free_count]. simpl in *.
    pose proof (count_char_free _ _ (pretty_nat_free "(" model_id digits_not_open)).
    pose proof (count_char_free _ _ (pretty_nat_free ")" model_id digits_not_close)).
    count_text. lia.
Qed.

Lemma tables_parentheses_witness :
  count_char "(" (gen_interfaces twin_unions_run)
    = count_char ")" (gen_interfaces twin_unions_run) ∧
  count_char "(" (gen_alts twin_unions_run)
    = count_char ")" (gen_alts twin_unions_run) + length (alts twin_unions_run) ∧
  count_char "(" (gen_enums twin_unions_run)
    = count_char ")" (gen_enums twin_unions_run) ∧
  count_char "(" (gen_primitives twin_unions_run)
    = count_char ")" (gen_primitives twin_unions_run) ∧
  count_char "(" (gen_frozen_arrays twin_unions_run)
    = count_char ")" (gen_frozen_arrays twin_unions_run) ∧
  count_char "(" (gen_all twin_unions_run)
    = count_char ")" (gen_all twin_unions_run) + length (alts twin_unions_run).
Proof.
  apply (tables_parentheses twin_unions_run).
  compute_done.
Defined.

(** A row [V(name)] and the name in it. *)
Lemma name_row_inj (l1 l2 : list string) :
  (λ name, "  V(" +:+ name +:+ ")") <$> l1
    = (λ name, "  V(" +:+ name +:+ ")") <$> l2 →
  l1 = l2.
Proof.
  revert l2. induction l1 as [|x l1 IH]; intros [|y l2]; try done.
  intros [= Hxy Hrest]. apply append_inv_l, append_inv_r in Hxy.
  f_equal; [done|by apply IH].
Qed.

Lemma name_rows_plain (l : list string) :
  Forall (char_free nl_char) l →
  Forall (λ s, s ≠ "" ∧ char_free nl_char s)
    ((λ name, "  V(" +:+ name +:+ ")") <$> l).
Proof.
  intros HF. apply Forall_fmap. eapply Forall_impl; [done|].
  intros name Hname. simpl. split; [done|].
  apply char_free_app. split; [compute_done|].
  apply char_free_app. split; [done|compute_done].
Qed.

Lemma name_table_inj (header : string) (l1 l2 : list string) :
  Forall (char_free nl_char) l1 → Forall (char_free nl_char) l2 →
  header +:+ backslash +:+ nl
    +:+ String.concat continuation ((λ name, "  V(" +:+ name +:+ ")") <$> l1) +:+ nl
  = header +:+ backslash +:+ nl
    +:+ String.concat continuation ((λ name, "  V(" +:+ name +:+ ")") <$> l2) +:+ nl →
  l1 = l2.
Proof.
  intros H1 H2 Heq. do 3 apply append_inv_l in Heq. apply append_inv_r in Heq.
  apply name_row_inj.
  apply (concat_sep_inj nl_char (" " +:+ backslash));
    [compute_done|by apply name_rows_plain..|exact Heq].
Qed.

(** X8: the enumerations table and the primitives table lose nothing:
    when no name holds a line break, two instances with the same
    enumerations table have the same enumerations collection, and two
    instances with the same primitives table have the same primitives
    collection. *)
Theorem name_tables_determine_collections (g1 g2 : generator) :
  Forall (char_free nl_char) (enums g1 ++ primitives g1) →
  Forall (char_free nl_char) (enums g2 ++ primitives g2) →
  (gen_enums g1 = gen_enums g2 → enums g1 = enums g2) ∧
  (gen_primitives g1 = gen_primitives g2 → primitives g1 = primitives g2).
Proof.
  intros [He1 Hp1]%Forall_app [He2 Hp2]%Forall_app. split.
  - by apply name_table_inj.
  - by apply name_table_inj.
Qed.

Lemma name_tables_determine_collections_witness :
  (gen_enums (names_generator ["A"; "B"] ["Number"])
     = gen_enums (names_generator ["A"; "B"] ["String"]) →
   enums (names_generator ["A"; "B"] ["Number"])
     = enums (names_generator ["A"; "B"] ["String"])) ∧
  (gen_primitives (names_generator ["A"; "B"] ["Number"])
     = gen_primitives (names_generator ["A"; "B"] ["String"]) →
   primitives (names_generator ["A"; "B"] ["Number"])
     = primitives (names_generator ["A"; "B"] ["String"])).
Proof.
  apply (name_tables_determine_collections
           (names_generator ["A"; "B"] ["Number"])
           (names_generator ["A"; "B"] ["String"])).
  - compute_done.
  - compute_done.
Defined.

(** Without the condition on line breaks the table can be ambiguous. *)
Example name_table_needs_plain_names :
  gen_enums (names_generator ["A)" +:+ continuation +:+ "  V(B"] [])
    = gen_enums (names_generator ["A"; "B"] []) ∧
  enums (names_generator ["A)" +:+ continuation +:+ "  V(B"] [])
    ≠ enums (names_generator ["A"; "B"] []).
Proof. split; [by vm_compute|done]. Qed.

(** ** What [main] prints *)

(** X9: when [main] returns it has printed two texts, the tables and
    then the enumeration classes.  When the root found under [Script] is
    an interface, the tables start with its row: after the header of the
    interfaces table comes [V(] with the name of this interface and one
    [T] entry per attribute, in declaration order, each with the name of
    the attribute, the name of its type and its laziness literal; when
    the attributes have distinct names, their identifiers are 0, 1, 2 and
    so on. *)
Theorem main_prints_script_row_first
    (n : nat) (h : gmap positive node) (r : Resolver)
    (enum_types : list (string * list string)) (root : positive)
    (name : string) (attrs : list TyInterfaceAttribute) (printed : list string) :
  resolver_interfaces r !! "Script" = Some root →
  h !! root = Some (TyInterface name attrs) →
  main n h r enum_types = MainReturned printed →
  ∃ fields rest,
    printed =
      ["#define BINAST_INTERFACES(V,T) " +:+ backslash +:+ nl +:+
         "  V(" +:+ name +:+ ", " +:+ gen_fields fields +:+ ")" +:+ rest;
       gen enum_types] ∧
    Forall2 (λ a (row : field_row), ∃ nm model_id,
               is_name h (resolved_ty a) nm ∧
               row = (attr_name a, nm, bool_literal (lazy a), model_id))
      attrs fields ∧
    (NoDup (attr_name <$> attrs) →
     (λ row : field_row, row.2) <$> fields = seq 0 (length attrs)).
Proof.
  intros Hroot Hnd Hm. unfold main, generate in Hm.
  change (reset (new_generator r)) with (new_generator r) in Hm.
  simpl in Hm. rewrite Hroot in Hm.
  destruct (visit n h root (new_generator r)) as [g|] eqn:Hv; [|done].
  injection Hm as <-.
  destruct (visit_traced_head h _ _ _ _ Hv) as (order & Ho & _);
    [apply not_elem_of_empty|].
  simpl in Ho.
  destruct (process n h root (new_generator r)) as [g1|] eqn:Hp; [|done].
  simpl in Ho.
  destruct (for_each_process_prefix h _ _ _ _ Ho) as ([tail Htail] & _).
  unfold process in Hp. rewrite Hnd in Hp. unfold visit_interface_type in Hp.
  destruct (interface_fields _ _ _ _ _ _) as [[fields g2]|] eqn:E; [|done].
  simpl in Hp. destruct (_cpp_name n h root) as [s|] eqn:Hs; [|done].
  injection Hp as <-.
  destruct n as [|n]; [done|]. rewrite cpp_name_S, Hnd in Hs. injection Hs as <-.
  destruct (interface_fields_rows h _ _ _ _ _ _ _ E)
    as (rows & Hrows & Hall & Hi & _).
  simpl in Hrows, Hi, Htail. subst rows. rewrite Hi in Htail. simpl in Htail.
  exists fields.
  exists (match tail with
          | [] => ""
          | _ =>
              continuation +:+
              String.concat continuation
                ((λ '(name, fields),
                    "  V(" +:+ name +:+ ", " +:+ gen_fields fields +:+ ")")
                   <$> tail)
          end +:+ nl +:+
          String.concat nl
            [gen_alts g; gen_enums g; gen_primitives g; gen_frozen_arrays g]).
  split_and!.
  - f_equal. unfold gen_all. rewrite concat_cons_cons.
    unfold gen_interfaces. rewrite Htail, fmap_cons.
    apply chars_inj. destruct tail as [|e tail].
    + simpl String.concat at 1. rewrite !chars_app, <-!app_assoc. done.
    + rewrite fmap_cons, concat_cons_cons, !chars_app, <-!app_assoc. done.
  - eapply Forall2_impl; [exact Hall|].
    intros a row (nm & model_id & Hname & _ & ->). by exists nm, model_id.
  - intros Hdist.
    destruct (interface_fields_numbering h _ root attrs [] fields _ g2 Hdist
                (λ a _, lookup_empty (root, attr_name a)) E)
      as (rows & Hrows & Hids & _).
    simpl in Hrows. by subst rows.
Qed.

Lemma main_prints_script_row_first_witness :
  ∃ fields rest,
    [gen_all shared_run; gen [("Op", ["b"; "a-c"; "+"])]] =
      ["#define BINAST_INTERFACES(V,T) " +:+ backslash +:+ nl +:+
         "  V(" +:+ "Script" +:+ ", " +:+ gen_fields fields +:+ ")" +:+ rest;
       gen [("Op", ["b"; "a-c"; "+"])]] ∧
    Forall2 (λ a (row : field_row), ∃ nm model_id,
               is_name shared_heap (resolved_ty a) nm ∧
               row = (attr_name a, nm, bool_literal (lazy a), model_id))
      script_attrs fields ∧
    (NoDup (attr_name <$> script_attrs) →
     (λ row : field_row, row.2) <$> fields = seq 0 (length script_attrs)).
Proof.
  apply (main_prints_script_row_first 3 shared_heap script_resolver
           [("Op", ["b"; "a-c"; "+"])] 1 "Script" script_attrs).
  - reflexivity.
  - reflexivity.
  - vm_compute. reflexivity.
Defined.

(** ** Member names *)

Lemma make_name_chars_plain (v : string) :
  Forall plain_char (String.list_ascii_of_string (make_name v)).
Proof.
  destruct (make_name_cases v) as [[Hs ->]|[_ ->]].
  - apply chars_concat_Forall; [compute_done|].
    apply Forall_fmap. eapply Forall_impl; [exact Hs|].
    intros c [nm Hnm]. simpl. unfold table_name. rewrite Hnm. simpl.
    exact (proj1 (table_names_letters c nm Hnm)).
  - rewrite chars_upper_sub. apply Forall_fmap, Forall_forall.
    intros c _. apply sanitized_char_plain.
Qed.

(** X11: a member name never holds a space, a hyphen or a lowercase
    letter, whatever the value. *)
Theorem make_name_plain (v : string) (c : ascii) :
  c ∈ String.list_ascii_of_string (make_name v) →
  c ≠ " "%char ∧ c ≠ "-"%char ∧ ¬ (97 ≤ nat_of_ascii c ∧ nat_of_ascii c ≤ 122).
Proof.
  intros Hc. pose proof (make_name_chars_plain v) as Hplain.
  exact (proj1 (Forall_forall _ _) Hplain c Hc).
Qed.

Lemma make_name_plain_witness :
  "A"%char ≠ " "%char ∧ "A"%char ≠ "-"%char ∧
  ¬ (97 ≤ nat_of_ascii "A" ∧ nat_of_ascii "A" ≤ 122).
Proof.
  apply (make_name_plain "a-c" "A"). vm_compute. left.
Defined.

Lemma string_length_chars (s : string) :
  String.length s = length (String.list_ascii_of_string s).
Proof. induction s as [|c s IH]; [done|]. simpl. by rewrite IH. Qed.

(** A non-empty value has a name with a character outside the table. *)
Lemma make_name_outside (v : string) :
  v ≠ "" →
  ∃ d, d ∈ String.list_ascii_of_string (make_name v) ∧ SYMBOL_NAMES !! d = None.
Proof.
  intros Hv. destruct (make_name_cases v) as [[Hs ->]|[(c & Hc & Hout) ->]].
  - destruct v as [|c v]; [done|]. simpl in *.
    apply Forall_cons in Hs as [[nm Hnm] _].
    destruct (proj2 (table_names_letters c nm Hnm)) as (d & rest & -> & Hd).
    exists d. split; [|done].
    assert (table_name c = String d rest) as Htn
      by (unfold table_name; by rewrite Hnm).
    destruct (list_fmap _ _ _ _); rewrite Htn; simpl; left.
  - exists (upper_char (if decide (c = "-"%char ∨ c = " "%char)
                        then "_"%char else c)).
    split; [|by apply sanitized_char_outside].
    rewrite chars_upper_sub. apply list_elem_of_fmap. by exists c.
Qed.

(** X12: the member name is empty for the empty value only.  A value of
    characters below 128 with a character outside the symbol table has a
    name of its own length, and a value made of table symbols has a name
    at least three times as long as itself. *)
Theorem make_name_empty_and_length (v : string) :
  (make_name v = "" ↔ v = "") ∧
  (ascii_only v → ¬ symbols_only v →
   String.length (make_name v) = String.length v) ∧
  (symbols_only v → 3 * String.length v ≤ String.length (make_name v)).
Proof.
  split_and!.
  - split; [|by intros ->].
    intros Hempty. destruct (decide (v = "")) as [|Hv]; [done|].
    destruct (make_name_outside v Hv) as (d & Hd & _).
    rewrite Hempty in Hd. by apply elem_of_nil in Hd.
  - intros _ Hns. destruct (make_name_cases v) as [[Hs _]|[_ ->]]; [done|].
    by rewrite !string_length_chars, chars_upper_sub, length_fmap.
  - intros Hs. destruct (make_name_cases v) as [[_ ->]|[Hout _]];
      [|by destruct (outside_not_symbols v)].
    rewrite (string_length_chars v). revert Hs. unfold symbols_only.
    generalize (String.list_ascii_of_string v). intros l.
    induction 1 as [|c l [nm Hnm] Hl IH]; [simpl; lia|].
    assert (3 ≤ String.length (table_name c)) as Hc.
    { unfold table_name. rewrite Hnm. simpl. revert c nm Hnm.
      apply map_Forall_lookup. compute_done. }
    destruct l as [|c' l]; rewrite !fmap_cons in *.
    + simpl in *. lia.
    + rewrite concat_cons_cons, (string_length_chars (_ +:+ _)), !chars_app,
        !length_app, <-!string_length_chars.
      simpl in *. lia.
Qed.

Lemma make_name_empty_and_length_witness :
  String.length (make_name "a-c") = String.length "a-c" ∧
  3 * String.length "+=" ≤ String.length (make_name "+=").
Proof.
  split.
  - apply (proj1 (proj2 (make_name_empty_and_length "a-c"))); compute_done.
  - apply (proj2 (proj2 (make_name_empty_and_length "+="))); compute_done.
Defined.

(** X13: naming is idempotent: the member name of a member name is the
    member name itself. *)
Theorem make_name_idempotent (v : string) :
  make_name (make_name v) = make_name v.
Proof.
  destruct (decide (v = "")) as [->|Hv]; [done|].
  destruct (make_name_outside v Hv) as (d & Hd & Hout).
  destruct (make_name_cases (make_name v)) as [[Hs _]|[_ ->]].
  - apply (proj1 (Forall_forall _ _) Hs) in Hd as [? ?]. congruence.
  - apply chars_inj. rewrite chars_upper_sub.
    pose proof (make_name_chars_plain v) as Hplain. revert Hplain.
    generalize (String.list_ascii_of_string (make_name v)). intros l.
    induction 1 as [|c l Hc _ IH]; [done|].
    rewrite fmap_cons, IH. f_equal. by apply plain_char_fixed.
Qed.

(** ** The order of processing *)

Section discovery.
Context (h : gmap positive node).
Implicit Types (g : generator) (t : positive) (order : list positive).

Lemma trace_app c l g g2 o1 o2 :
  visit_trace h [c] g o1 → visit_trace h l g2 o2 →
  visited_types g2 = visited_types g ∪ list_to_set o1 →
  visit_trace h (c :: l) g (o1 ++ o2).
Proof.
  intros [N1 W1 R1 C1 E1] [N2 W2 R2 C2 E2] Hv2. split.
  - apply NoDup_app. split_and!; [done| |done].
    intros x Hx1 Hx2. apply (W2 x Hx2). rewrite Hv2. set_solver.
  - intros x [?|Hx]%elem_of_app; [by auto|].
    intros Hin. apply (W2 x Hx). rewrite Hv2. set_solver.
  - intros x [Hx|Hx]%elem_of_app.
    + destruct (R1 x Hx) as (c' & ->%list_elem_of_singleton & ?).
      exists c. split; [left|done].
    + destruct (R2 x Hx) as (c' & ? & ?). exists c'. split; [by right|done].
  - intros c' [->|Hc']%elem_of_cons.
    + destruct (C1 c) as [?|?]; [set_solver|by left|right; set_solver].
    + destruct (C2 c' Hc') as [Hin|?]; [|right; set_solver].
      rewrite Hv2 in Hin. set_solver.
  - intros x y [Hx|Hx]%elem_of_app Hxy.
    + destruct (E1 x y Hx Hxy); [by left|right; set_solver].
    + destruct (E2 x y Hx Hxy) as [Hin|?]; [|right; set_solver].
      rewrite Hv2 in Hin. set_solver.
Qed.

Lemma trace_cons t g g1 o :
  t ∉ visited_types g → visit_trace h (children h t) g1 o →
  visited_types g1 = visited_types g ∪ {[t]} →
  visit_trace h [t] g (t :: o).
Proof.
  intros Hin [N W R C E] Hv1. split.
  - constructor; [|done]. intros Ht. apply (W t Ht). rewrite Hv1. set_solver.
  - intros x [->|Hx]%elem_of_cons; [done|].
    intros Hx'. apply (W x Hx). rewrite Hv1. set_solver.
  - intros x [->|Hx]%elem_of_cons.
    + exists t. split; [left|]. apply rtc_refl.
    + destruct (R x Hx) as (c & Hc & Hcx). exists t. split; [left|].
      eapply rtc_l; [exact Hc|done].
  - intros c ->%list_elem_of_singleton. right. left.
  - intros x y [->|Hx]%elem_of_cons Hxy.
    + destruct (C y Hxy) as [Hy|?]; [|right; by right].
      rewrite Hv1 in Hy. set_solver.
    + destruct (E x y Hx Hxy) as [Hy|?]; [|right; by right].
      rewrite Hv1 in Hy. set_solver.
Qed.

Lemma discovered_app c l o1 o2 :
  discovered h [c] o1 → discovered h l o2 → discovered h (c :: l) (o1 ++ o2).
Proof.
  intros D1 D2 i y Hi. destruct (decide (i < length o1)) as [Hlt|Hge].
  - rewrite lookup_app_l in Hi by done.
    destruct (D1 i y Hi) as [->%list_elem_of_singleton|(j & x & ? & Hj & ?)];
      [left; left|].
    right. exists j, x. split_and!; [done| |done].
    rewrite lookup_app_l; [done|lia].
  - rewrite lookup_app_r in Hi by lia.
    destruct (D2 _ y Hi) as [?|(j & x & ? & Hj & ?)]; [left; by right|].
    right. exists (length o1 + j), x. split_and!; [lia| |done].
    rewrite lookup_app_r by lia. by replace (length o1 + j - length o1) with j by lia.
Qed.

Lemma discovered_cons t o :
  discovered h (children h t) o → discovered h [t] (t :: o).
Proof.
  intros D [|i] y Hi; simpl in Hi.
  - injection Hi as <-. left. left.
  - right. destruct (D i y Hi) as [Hy|(j & x & ? & Hj & ?)].
    + exists 0, t. split_and!; [lia|done|done].
    + exists (S j), x. split_and!; [lia|done|done].
Qed.

Lemma for_each_visit_discovered n l g g' :
  (∀ t g g', visit n h t g = Some g' →
     ∃ order, for_each (process n h) order g = Some g' ∧
       visit_trace h [t] g order ∧ discovered h [t] order) →
  for_each (visit n h) l g = Some g' →
  ∃ order, for_each (process n h) order g = Some g' ∧
    visit_trace h l g order ∧ discovered h l order.
Proof.
  intros IH. revert g. induction l as [|c l IHl]; intros g; simpl.
  - intros [= <-]. exists []. split_and!; [done| |by intros i y ?].
    split; try (by intros; exfalso; eapply elem_of_nil); constructor.
  - destruct (visit n h c g) as [g2|] eqn:E; [|done]. simpl. intros Hl.
    destruct (IH _ _ _ E) as (o1 & Ho1 & T1 & D1).
    destruct (IHl _ Hl) as (o2 & Ho2 & T2 & D2).
    destruct (for_each_process_frame h _ _ _ _ Ho1) as (_ & Hv2 & _).
    exists (o1 ++ o2). split_and!.
    + by rewrite for_each_app, Ho1.
    + by eapply trace_app.
    + by apply discovered_app.
Qed.

Lemma visit_discovered n t g g' :
  visit n h t g = Some g' →
  ∃ order, for_each (process n h) order g = Some g' ∧
    visit_trace h [t] g order ∧ discovered h [t] order.
Proof.
  revert t g g'. induction n as [|n IH]; intros t g g'; [done|].
  rewrite visit_unfold. destruct (decide (t ∈ visited_types g)) as [Hin|Hin].
  - intros [= <-]. exists []. split_and!; [done| |by intros i y ?].
    split; try (by intros; exfalso; eapply elem_of_nil); [constructor|].
    intros c ->%list_elem_of_singleton. by left.
  - destruct (process n h t g) as [g1|] eqn:E; [|done]. simpl. intros Hl.
    destruct (for_each_visit_discovered _ _ _ _ IH Hl) as (o & Ho & T & D).
    destruct (process_frame h _ _ _ _ E) as (_ & Hv1 & _).
    exists (t :: o). split_and!.
    + simpl. rewrite (process_mono h _ (S n) _ _ _ E); [|lia]. simpl.
      eapply for_each_mono; [|done]. intros x a b _ ?.
      eapply process_mono; [done|lia].
    + by eapply trace_cons.
    + by apply discovered_cons.
Qed.
End discovery.

(** X14: the types are processed in the order of their discovery.  When
    a call of [visit] returns, the types it has processed form a list
    without repetition of types new to the instance, in which every type
    but the one visited comes after a type that refers to it. *)
Theorem visit_in_discovery_order
    (h : gmap positive node) (n : nat) (t : positive) (g g' : generator) :
  visit n h t g = Some g' →
  ∃ order,
    for_each (process n h) order g = Some g' ∧
    visit_trace h [t] g order ∧
    ∀ i y, order !! i = Some y →
      y = t ∨ ∃ j x, j < i ∧ order !! j = Some x ∧ y ∈ children h x.
Proof.
  intros Hv. destruct (visit_discovered h _ _ _ _ Hv) as (order & Ho & T & D).
  exists order. split_and!; [done..|].
  intros i y Hi. destruct (D i y Hi) as [->%list_elem_of_singleton|?]; auto.
Qed.

Lemma visit_in_discovery_order_witness :
  ∃ order,
    for_each (process 4 cyclic_heap) order (new_generator script_resolver)
      = Some cyclic_run ∧
    visit_trace cyclic_heap [1%positive] (new_generator script_resolver) order ∧
    ∀ i y, order !! i = Some y →
      y = 1%positive ∨
      ∃ j x, j < i ∧ order !! j = Some x ∧ y ∈ children cyclic_heap x.
Proof.
  apply (visit_in_discovery_order cyclic_heap 4 1).
  vm_compute. reflexivity.
Defined.

(** ** Identifiers in the order of the tables *)

Section numbering.
Context (h : gmap positive node).
Implicit Types (g : generator) (t : positive).

Lemma seq_sorted i k : StronglySorted lt (seq i k).
Proof.
  revert i. induction k as [|k IH]; intros i; simpl; constructor; [done|].
  apply Forall_seq. intros j ?. lia.
Qed.

Lemma numbered_reset g : visited_types g = ∅ → numbered (reset g).
Proof.
  intros Hv. split; simpl; try by constructor.
  intros t a [? ?]. done.
Qed.

(** Ids appended after the counter keep a table in order. *)
Lemma ids_extend (ids : list nat) next k :
  Forall (λ i, i < next) ids → StronglySorted lt ids →
  Forall (λ i, i < next + k) (ids ++ seq next k) ∧
  StronglySorted lt (ids ++ seq next k).
Proof.
  intros Hb Hs. split.
  - apply Forall_app. split.
    + eapply Forall_impl; [done|]. intros i ?. simpl in *. lia.
    + apply Forall_seq. intros j ?. lia.
  - apply StronglySorted_app_2; [|done|apply seq_sorted].
    intros x1 x2 Hx1 [? ?]%elem_of_seq.
    apply (proj1 (Forall_forall _ _) Hb) in Hx1. simpl in Hx1. lia.
Qed.

Lemma interface_ids_snoc g (e : string * list field_row) :
  interface_ids (append_interface e g) =
    interface_ids g ++ ((λ row : field_row, row.2) <$> e.2).
Proof.
  unfold interface_ids. simpl. rewrite fmap_app, concat_app. simpl.
  by rewrite app_nil_r.
Qed.

Lemma process_numbered n t g g' :
  distinct_attr_names h → t ∉ visited_types g → numbered g →
  process n h t g = Some g' → numbered g'.
Proof.
  intros Hdist Hin [Hk Hib Hfb His Hfs] Hp.
  assert (Hnew : ∀ a, model_ids g !! (t, a) = None).
  { intros a. apply eq_None_not_Some. intros ?%Hk. done. }
  destruct (process_frame h _ _ _ _ Hp) as (_ & Hv' & _).
  destruct (process_keys h _ _ _ _ Hp) as (Hle & _ & Hdom).
  assert (Hk' : ∀ t' a, is_Some (model_ids g' !! (t', a)) → t' ∈ visited_types g').
  { intros t' a Hs. rewrite Hv'. apply elem_of_dom in Hs. rewrite Hdom in Hs.
    apply elem_of_union in Hs as [Hs|Hs].
    - apply elem_of_dom, Hk in Hs. set_solver.
    - unfold keys_of in Hs. destruct (h !! t) as [[]|]; set_solver. }
  unfold process in Hp. destruct (h !! t) as [nd|] eqn:Hnd; [|done].
  destruct nd.
  - unfold visit_interface_type in Hp.
    destruct (interface_fields _ _ _ _ _ _) as [[fields g1]|] eqn:E; [|done].
    simpl in Hp. destruct (_cpp_name n h t) as [s|]; [|done].
    injection Hp as <-.
    destruct (interface_fields_numbering h n t attrs [] fields (add_visited t g) g1)
      as (rows' & Hrows & Hids & Hnext);
      [exact (Hdist t _ Hnd)|by intros; apply Hnew|done|].
    simpl in Hrows. subst rows'.
    destruct (interface_fields_rows h _ _ _ _ _ _ _ E)
      as (_ & _ & _ & Hi & _ & _ & _ & Hf & _).
    simpl in Hids, Hnext, Hi, Hf.
    destruct (ids_extend (interface_ids g) (next_model_id g) (length attrs) Hib His)
      as [Hb' Hs'].
    split; [done|..].
    + rewrite interface_ids_snoc. simpl. unfold interface_ids at 1.
      rewrite Hi. fold (interface_ids g). by rewrite Hids, Hnext.
    + unfold frozen_array_ids. simpl. rewrite Hf, Hnext.
      eapply Forall_impl; [exact Hfb|]. intros i ?. simpl in *. lia.
    + rewrite interface_ids_snoc. simpl. unfold interface_ids at 1.
      rewrite Hi. fold (interface_ids g). by rewrite Hids.
    + unfold frozen_array_ids. simpl. by rewrite Hf.
  - unfold visit_alt_type in Hp. destruct (_cpp_name n h t); [|done].
    simpl in Hp. destruct (mapM _ _); [|done]. injection Hp as <-. by split.
  - unfold visit_enum_type in Hp. destruct (_cpp_name n h t); [|done].
    injection Hp as <-. by split.
  - unfold visit_primitive_type in Hp. destruct (_cpp_name n h t); [|done].
    injection Hp as <-. by split.
  - unfold visit_frozen_array_type in Hp.
    destruct (get_insert_novel (t, "list-length") (add_visited t g))
      as (Hid & _ & Hnext); [apply Hnew|].
    pose proof (get_insert_frame (t, "list-length") (add_visited t g)) as Hfr.
    destruct (_get_insert_model_id _ _) as [model_id g1].
    simpl in Hid, Hnext, Hfr. destruct Hfr as (_ & _ & Hi & _ & _ & _ & Hf).
    destruct (_cpp_name n h t) as [s|]; [|done]. simpl in Hp.
    destruct (_cpp_name n h element_ty) as [s'|]; [|done]. injection Hp as <-.
    destruct (ids_extend (frozen_array_ids g) (next_model_id g) 1 Hfb Hfs)
      as [Hb' Hs'].
    split; [done|..].
    + unfold interface_ids. simpl. rewrite Hi, Hnext.
      eapply Forall_impl; [exact Hib|]. intros i ?. simpl in *. lia.
    + unfold frozen_array_ids. simpl. rewrite Hf, fmap_app, Hnext. simpl.
      by rewrite Hid.
    + unfold interface_ids. simpl. by rewrite Hi.
    + unfold frozen_array_ids. simpl. rewrite Hf, fmap_app. simpl.
      by rewrite Hid.
  - injection Hp as <-. by split.
  - injection Hp as <-. by split.
Qed.

Lemma for_each_process_numbered n order g g' :
  distinct_attr_names h → NoDup order →
  (∀ x, x ∈ order → x ∉ visited_types g) → numbered g →
  for_each (process n h) order g = Some g' → numbered g'.
Proof.
  intros Hdist. revert g. induction order as [|t order IH]; intros g Hnd Hnew Hg.
  - by intros [= <-].
  - simpl. destruct (process n h t g) as [g1|] eqn:E; [|done]. simpl.
    apply NoDup_cons in Hnd as [Ht Hnd].
    destruct (process_frame h _ _ _ _ E) as (_ & Hv1 & _).
    apply IH; [done| |].
    + intros x Hx. rewrite Hv1. apply not_elem_of_union. split.
      * apply Hnew. by right.
      * apply not_elem_of_singleton. by intros ->.
    + eapply process_numbered; [done| |done..]. apply Hnew. left.
Qed.
End numbering.

(** X15: when no interface declares two attributes of the same name, the
    identifiers are issued in the order of the tables: after a run of
    [generate] on a new instance that returns, the identifiers in the
    rows of the interfaces collection increase from row to row and from
    entry to entry, those of the sequences collection increase from entry
    to entry, and all lie below the counter. *)
Theorem identifiers_increase_along_tables
    (h : gmap positive node) (r : Resolver) (n : nat) (g' : generator) :
  distinct_attr_names h →
  generate n h (new_generator r) = Returned g' →
  StronglySorted lt (interface_ids g') ∧
  StronglySorted lt (frozen_array_ids g') ∧
  Forall (λ i, i < next_model_id g') (interface_ids g' ++ frozen_array_ids g').
Proof.
  intros Hdist. unfold generate.
  change (reset (new_generator r)) with (new_generator r). simpl.
  destruct (resolver_interfaces r !! "Script") as [root|]; [|done].
  destruct (visit n h root (new_generator r)) as [g|] eqn:Hv; [|done].
  intros [= ->].
  destruct (visit_traced h _ _ _ _ Hv) as (order & Ho & [N W _ _ _]).
  destruct (for_each_process_numbered h n order (new_generator r) g' Hdist N W
              (numbered_reset (new_generator r) eq_refl) Ho)
    as [_ Hib Hfb His Hfs].
  split_and!; [done..|]. by apply Forall_app.
Qed.

Lemma identifiers_increase_along_tables_witness :
  StronglySorted lt (interface_ids shared_run) ∧
  StronglySorted lt (frozen_array_ids shared_run) ∧
  Forall (λ i, i < next_model_id shared_run)
    (interface_ids shared_run ++ frozen_array_ids shared_run).
Proof.
  apply (identifiers_increase_along_tables shared_heap script_resolver 3).
  - compute_done.
  - vm_compute. reflexivity.
Defined.

(** With two attributes of one name the identifiers do not increase. *)
Example repeated_attribute_name_ids :
  (λ row : field_row, row.2) <$> twin_rows = [0; 1; 0].
Proof. by vm_compute. Qed.
